(** * Retrieval pipeline: ingestion, embeddings and the session store

    A shallow embedding of the JavaScript services of the repository:
    - [Ingestion]: [IngestionService.removeDuplicates] and
      [IngestionService.chunkContent];
    - [Embeddings]: [EmbeddingsService.generateEmbeddings],
      [generateBatchEmbeddings] and [cosineSimilarity];
    - [Sessions]: [SessionManager] over Redis or the in-memory fallback map.

    JavaScript strings are sequences of UTF-16 code units, numbers used as
    indices and counters are integers, embedding components are binary64
    floats.  Asynchronous calls are sequential in the source (every call is
    awaited), so they are modelled as state passing; [throw] and [try/catch]
    are modelled by the [outcome] type.  Logging is not modelled. *)

From Stdlib Require Import ZArith NArith List String Ascii Floats Lia DecimalNat.
From Equations Require Import Equations.
From stdpp Require Import base list gmap.

Set Default Proof Using "Type".

(** ** JavaScript values and built-ins used by the services *)

Module JS.

(** A string is the list of its UTF-16 code units. *)
Abbreviation jsstring := (list N).

Definition str (s : string) : jsstring :=
  N_of_ascii <$> list_ascii_of_string s.

(** ECMAScript [WhiteSpace] and [LineTerminator] code points: what
    [String.prototype.trim] strips. *)
Definition isWhiteSpace (c : N) : bool :=
  bool_decide (c ∈ [0x09; 0x0A; 0x0B; 0x0C; 0x0D; 0x20; 0xA0; 0x1680; 0x2028;
                    0x2029; 0x202F; 0x205F; 0x3000; 0xFEFF]%N)
  || ((0x2000 <=? c)%N && (c <=? 0x200A)%N).

Fixpoint trimStart (s : jsstring) : jsstring :=
  match s with
  | [] => []
  | c :: s' => if isWhiteSpace c then trimStart s' else s
  end.

Definition trimEnd (s : jsstring) : jsstring :=
  reverse (trimStart (reverse s)).

Definition trim (s : jsstring) : jsstring := trimEnd (trimStart s).

(** [s.split(sep)] for a separator of one code unit; the empty string
    splits into one empty piece. *)
Fixpoint split (sep : N) (s : jsstring) : list jsstring :=
  match s with
  | [] => [[]]
  | c :: s' =>
      if (c =? sep)%N then [] :: split sep s'
      else match split sep s' with
           | w :: ws => (c :: w) :: ws
           | [] => [[c]]
           end
  end.

(** [a.join(sep)] *)
Fixpoint join (sep : jsstring) (a : list jsstring) : jsstring :=
  match a with
  | [] => []
  | [w] => w
  | w :: ws => w ++ sep ++ join sep ws
  end.

(** Relative index of [Array.prototype.slice] and [splice]: negative
    indices count from the end, everything is clamped to [0, len]. *)
Definition relIndex (len k : Z) : Z :=
  if (k <? 0)%Z then Z.max (len + k) 0 else Z.min k len.

(** [a.slice(start, end)] *)
Definition slice {A} (a : list A) (start end_ : Z) : list A :=
  let len := Z.of_nat (length a) in
  let k := relIndex len start in
  let final := relIndex len end_ in
  take (Z.to_nat (final - k)) (drop (Z.to_nat k) a).

(** [a.splice(start, deleteCount)]: the array that is left. *)
Definition splice {A} (a : list A) (start deleteCount : Z) : list A :=
  let len := Z.of_nat (length a) in
  let k := relIndex len start in
  let dc := Z.min (Z.max deleteCount 0) (len - k) in
  take (Z.to_nat k) a ++ drop (Z.to_nat (k + dc)) a.

(** [s.substring(start, end)]: arguments clamped to [0, len] and swapped
    when out of order. *)
Definition substring (s : jsstring) (start end_ : Z) : jsstring :=
  let len := Z.of_nat (length s) in
  let a := Z.min (Z.max start 0) len in
  let b := Z.min (Z.max end_ 0) len in
  take (Z.to_nat (Z.max a b - Z.min a b)) (drop (Z.to_nat (Z.min a b)) s).

(** [s.startsWith(p)] *)
Fixpoint startsWith (p s : jsstring) : bool :=
  match p, s with
  | [], _ => true
  | _ :: _, [] => false
  | a :: p', b :: s' => (a =? b)%N && startsWith p' s'
  end.

(** [s.replace(pat, rep)] for a string pattern: the first occurrence. *)
Fixpoint replace (pat rep s : jsstring) : jsstring :=
  if startsWith pat s then rep ++ drop (length pat) s
  else match s with
       | [] => []
       | c :: s' => c :: replace pat rep s'
       end.

(** What a call produces: a value, or a thrown error. *)
Inductive error :=
| AxiosError        (* the HTTP request was rejected *)
| InvalidFormat     (* Error("Invalid response format from Jina API") *)
| TypeError         (* property access on undefined, call of a non-function *)
| LengthMismatch    (* Error("Vectors must have the same length") *)
| RedisError.       (* the Redis server refused a command *)

Inductive outcome (A : Type) :=
| Ok (a : A)
| Throw (e : error).
Arguments Ok {A} a.
Arguments Throw {A} e.

(** Sequential code over a mutable state [St] that may throw. *)
Definition M (St A : Type) : Type := St -> outcome A * St.

Definition ret {St A} (a : A) : M St A := fun st => (Ok a, st).

Definition throw {St A} (e : error) : M St A := fun st => (Throw e, st).

Definition bind {St A B} (m : M St A) (k : A -> M St B) : M St B :=
  fun st =>
    match m st with
    | (Ok a, st') => k a st'
    | (Throw e, st') => (Throw e, st')
    end.

(** [try { m } catch (error) { h error }] *)
Definition try_catch {St A} (m : M St A) (h : error -> M St A) : M St A :=
  fun st =>
    match m st with
    | (Ok a, st') => (Ok a, st')
    | (Throw e, st') => h e st'
    end.

Definition get {St} : M St St := fun st => (Ok st, st).

Definition put {St} (st : St) : M St unit := fun _ => (Ok tt, st).

End JS.

Export JS.

Declare Scope js_scope.
Delimit Scope js_scope with js.
Notation "x <- m ;; k" := (bind m (fun x => k))
  (at level 100, m at next level, right associativity) : js_scope.
Notation "m ;;; k" := (bind m (fun _ => k))
  (at level 100, right associativity) : js_scope.

(** ** Ingestion: deduplication and chunking *)

Module Ingestion.

(** The article shape produced by the fetchers. *)
Record Article := {
  title : jsstring;
  content : jsstring;
  url : jsstring;
  source : jsstring;
  publishedAt : jsstring;
  author : option jsstring;
  description : option jsstring;
  image : option jsstring
}.

Section RemoveDuplicates.
(** [String.prototype.toLowerCase] follows the Unicode case tables; the
    deduplicator is modelled for any such function. *)
Variable toLowerCase : jsstring -> jsstring.

(** [article.title.toLowerCase().substring(0, 50)] *)
Definition normalizedKey (article : Article) : jsstring :=
  substring (toLowerCase (title article)) 0 50.

(** The callback of [articles.filter], threaded with the [seen] set. *)
Fixpoint filterSeen (seen : gset jsstring) (articles : list Article)
  : list Article :=
  match articles with
  | [] => []
  | article :: rest =>
      let key := normalizedKey article in
      if decide (key ∈ seen) then filterSeen seen rest
      else article :: filterSeen ({[ key ]} ∪ seen) rest
  end.

Definition removeDuplicates (articles : list Article) : list Article :=
  filterSeen ∅ articles.
End RemoveDuplicates.

(** ASCII lower-casing, the restriction of [toLowerCase] to ASCII titles. *)
Definition asciiLower (s : jsstring) : jsstring :=
  (fun c => if (65 <=? c)%N && (c <=? 90)%N then (c + 32)%N else c) <$> s.

Definition space : N := 32.

(** The [for] loop of [chunkContent]; [step] is [maxChunkSize - overlap].
    With [step <= 0] the index never passes [words.length] and the loop
    does not end: [None]. *)
Equations? chunkLoop (words : list jsstring) (maxChunkSize step : Z)
    (i : Z) (chunks : list jsstring) : option (list jsstring)
    by wf (Z.to_nat (Z.of_nat (length words) - i)) lt :=
  chunkLoop words maxChunkSize step i chunks
    with Z_lt_dec i (Z.of_nat (length words)) := {
    | right _ => Some chunks
    | left _ with Z_lt_dec 0 step := {
        | right _ => None
        | left _ =>
            let chunk := join [space] (slice words i (i + maxChunkSize)) in
            chunkLoop words maxChunkSize step (i + step)
              (match trim chunk with
               | [] => chunks
               | _ :: _ => chunks ++ [trim chunk]
               end) } }.
Proof. lia. Qed.

Definition chunkContent (content : jsstring) (maxChunkSize overlap : Z)
  : option (list jsstring) :=
  let words := split space content in
  match chunkLoop words maxChunkSize (maxChunkSize - overlap) 0 [] with
  | None => None
  | Some [] => Some [content]
  | Some chunks => Some chunks
  end.

(** The [j]-th window of [size] words for a stride of [d] words, joined by
    single spaces: what the loop builds at index [j * d]. *)
Definition window (words : list jsstring) (size d j : nat) : jsstring :=
  join [space] (take size (drop (j * d) words)).

(** The words of a chunk, as [chunkContent] counts them. *)
Definition wordsOf (chunk : jsstring) : list jsstring := split space chunk.

(** A word that [trim] leaves alone: not empty, no white space at either
    end.  A text whose words are single-spaced has only such words. *)
Definition cleanWord (w : jsstring) : bool :=
  match head w, last w with
  | Some a, Some b => negb (isWhiteSpace a) && negb (isWhiteSpace b)
  | _, _ => false
  end.

(** Concatenation of the chunks with the overlap removed: the first chunk
    whole, every later chunk without its first [overlap] words. *)
Definition removeOverlap (overlap : nat) (chunks : list jsstring)
  : list jsstring :=
  match chunks with
  | [] => []
  | c :: cs => wordsOf c ++ concat ((fun c => drop overlap (wordsOf c)) <$> cs)
  end.

(** [ceil(a / b)] on naturals. *)
Definition ceilDiv (a b : nat) : nat := (a + b - 1) / b.

Definition withinOne (a b : nat) : Prop := a <= b + 1 /\ b <= a + 1.

(** The chunking property as the specification words it, with [W] the
    number of words the code splits the content into. *)
Definition chunkingProperty (content : jsstring) (maxChunkSize overlap : Z)
  : Prop :=
  exists chunks,
    chunkContent content maxChunkSize overlap = Some chunks
    /\ withinOne (length chunks)
         (ceilDiv (length (split space content))
                  (Z.to_nat (maxChunkSize - overlap)))
    /\ Forall (fun c => (Z.of_nat (length (wordsOf c)) <= maxChunkSize)%Z) chunks
    /\ removeOverlap (Z.to_nat overlap) chunks = split space content.

(** The defaults of the signature: [maxChunkSize = 500], [overlap = 50]. *)
Definition chunkContentDefault (content : jsstring) :=
  chunkContent content 500 50.

End Ingestion.

(** ** Embeddings: batching, retry with backoff, fallback records *)

Module Embeddings.

Abbreviation vector := (list float).

(** The fields the constructor sets; [apiKey] is [process.env.JINA_API_KEY],
    [None] when the variable is not set. *)
Record EmbeddingsService := {
  apiKey : option jsstring;
  baseURL : jsstring;
  model : jsstring;
  maxRetries : nat;
  retryDelay : nat;
  batchSize : nat
}.

Definition constructor (JINA_API_KEY : option jsstring) : EmbeddingsService :=
  {| apiKey := JINA_API_KEY;
     baseURL := str "https://api.jina.ai/v1/embeddings";
     model := str "jina-embeddings-v2-base-en";
     maxRetries := 3;
     retryDelay := 1000;
     batchSize := 20 |}.

(** [!this.apiKey]: the key is undefined or the empty string. *)
Definition noApiKey (this : EmbeddingsService) : bool :=
  match apiKey this with
  | None | Some [] => true
  | Some (_ :: _) => false
  end.

(** One element of [response.data.data]; [item_embedding] is [None] when
    the provider left the field out. *)
Record item := {
  item_embedding : option vector;
  item_index : Z
}.

(** What [axios.post] yields: a rejection (network error, timeout, HTTP
    error status), a body without [data.data], or the list of items. *)
Inductive response :=
| Rejected
| NoData
| Data (items : list item).

(** The records the service returns; [failed] is only set on fallback
    records (absent, hence falsy, otherwise). *)
Record EmbeddingRecord := {
  embedding : option vector;
  index : Z;
  failed : bool
}.

(** What the service does to the outside world, in order. *)
Inductive event :=
| Post (input : list jsstring)
| Delay (ms : nat).

(** Number of provider calls in a trace. *)
Fixpoint calls (tr : list event) : nat :=
  match tr with
  | [] => 0
  | Post _ :: tr' => S (calls tr')
  | Delay _ :: tr' => calls tr'
  end.

Fixpoint delays (tr : list event) : list nat :=
  match tr with
  | [] => []
  | Post _ :: tr' => delays tr'
  | Delay ms :: tr' => ms :: delays tr'
  end.

(** The argument of [generateEmbeddings]: an array, or a single value that
    the method wraps into an array. *)
Inductive textsArg :=
| TextArray (texts : list jsstring)
| TextValue (text : jsstring).

Section Service.
Variable this : EmbeddingsService.
(** The provider: its answer to the [n]-th request (counted from 0). *)
Variable provider : nat -> list jsstring -> response.

Definition delay (ms : nat) : M (list event) unit :=
  fun tr => (Ok tt, tr ++ [Delay ms]).

Definition axiosPost (input : list jsstring) : M (list event) response :=
  fun tr => (Ok (provider (calls tr) input), tr ++ [Post input]).

Definition toRecord (it : item) : EmbeddingRecord :=
  {| embedding := item_embedding it; index := item_index it; failed := false |}.

(** The [try] block of [generateBatchEmbeddings].  Reading
    [embeddings[0].embedding.length] throws when the first item has no
    embedding; a dimension other than 768 is only logged. *)
Definition requestBatch (texts : list jsstring)
  : M (list event) (list EmbeddingRecord) :=
  (response <- axiosPost texts ;;
   match response with
   | Rejected => throw AxiosError
   | NoData => throw InvalidFormat
   | Data items =>
       let embeddings := toRecord <$> items in
       match embeddings with
       | [] => ret embeddings
       | first :: _ =>
           match embedding first with
           | None => throw TypeError
           | Some _ => ret embeddings
           end
       end
   end)%js.

(** [texts.map((_, index) => ({ embedding: new Array(768).fill(0), index,
    failed: true }))] *)
Definition fallbackRecords (texts : list jsstring) : list EmbeddingRecord :=
  imap (fun index _ =>
          {| embedding := Some (replicate 768 0%float);
             index := Z.of_nat index;
             failed := true |}) texts.

(** The test [retryCount < this.maxRetries] of the [catch] block reads no
    state, so it is made before the [try]. *)
Equations? generateBatchEmbeddings (texts : list jsstring) (retryCount : nat)
    : M (list event) (list EmbeddingRecord)
    by wf (maxRetries this - retryCount) lt :=
  generateBatchEmbeddings texts retryCount
    with lt_dec retryCount (maxRetries this) := {
    | left _ =>
        try_catch (requestBatch texts)
          (fun _ =>
             (delay (retryDelay this * 2 ^ retryCount) ;;;
              generateBatchEmbeddings texts (retryCount + 1))%js)
    | right _ =>
        try_catch (requestBatch texts)
          (fun _ => ret (fallbackRecords texts)) }.
Proof. lia. Qed.

(** One round of the [for] loop of [generateEmbeddings]: the [try] with
    its [catch], which keeps what was collected so far. *)
Definition processBatch (texts : list jsstring) (i : nat)
    (allEmbeddings : list EmbeddingRecord)
  : M (list event) (list EmbeddingRecord) :=
  let batch := slice texts (Z.of_nat i) (Z.of_nat (i + batchSize this)) in
  try_catch
    (batchEmbeddings <- generateBatchEmbeddings batch 0 ;;
     (if decide (i + batchSize this < length texts) then delay 500
      else ret tt) ;;;
     ret (allEmbeddings ++ batchEmbeddings))%js
    (fun _ => ret allEmbeddings).

(** The [for] loop.  With [batchSize = 0] the index never advances and
    the loop does not end: [None]. *)
Equations? batchLoop (texts : list jsstring) (i : nat)
    (allEmbeddings : list EmbeddingRecord) (tr : list event)
    : option (outcome (list EmbeddingRecord) * list event)
    by wf (length texts - i) lt :=
  batchLoop texts i allEmbeddings tr with lt_dec i (length texts) := {
    | right _ => Some (Ok allEmbeddings, tr)
    | left _ with Nat.eq_dec (batchSize this) 0 := {
        | left _ => None
        | right _ with processBatch texts i allEmbeddings tr := {
            | (Ok all', tr') => batchLoop texts (i + batchSize this) all' tr'
            | (Throw e, tr') => Some (Throw e, tr') } } }.
Proof. lia. Qed.

Definition generateEmbeddings (texts : textsArg) (tr : list event)
  : option (outcome (list EmbeddingRecord) * list event) :=
  if noApiKey this then Some (Ok [], tr)
  else
    let texts := match texts with
                 | TextArray a => a
                 | TextValue t => [t]
                 end in
    batchLoop texts 0 [] tr.

(** [generateSingleEmbedding(text)] *)
Definition generateSingleEmbedding (text : jsstring) (tr : list event)
  : option (outcome (option EmbeddingRecord) * list event) :=
  match generateEmbeddings (TextArray [text]) tr with
  | Some (Ok embeddings, tr') => Some (Ok (head embeddings), tr')
  | Some (Throw e, tr') => Some (Throw e, tr')
  | None => None
  end.
End Service.

(** The accumulation loop of [cosineSimilarity]:
    [(dotProduct, normA, normB)] after all indices below [vecA.length].
    An index past the end of an array reads [undefined], [NaN] in
    arithmetic. *)
Definition cosineStep (vecA vecB : vector) (acc : float * float * float)
    (i : nat) : float * float * float :=
  let '(dotProduct, normA, normB) := acc in
  let a := nth i vecA nan in
  let b := nth i vecB nan in
  (dotProduct + a * b, normA + a * a, normB + b * b)%float.

Definition cosineLoop (vecA vecB : vector) : float * float * float :=
  fold_left (cosineStep vecA vecB) (seq 0 (length vecA)) (0, 0, 0)%float.

Definition cosineSimilarity (vecA vecB : vector) : outcome float :=
  if decide (length vecA <> length vecB) then Throw LengthMismatch
  else
    let '(dotProduct, normA, normB) := cosineLoop vecA vecB in
    let normA := PrimFloat.sqrt normA in
    let normB := PrimFloat.sqrt normB in
    if (normA =? 0)%float || (normB =? 0)%float then Ok 0%float
    else Ok (dotProduct / (normA * normB))%float.

(** A provider that rejects its first [failures] requests and then answers
    with one two-component embedding per input. *)
Definition flakyProvider (failures n : nat) (input : list jsstring)
  : response :=
  if n <? failures then Rejected
  else Data (imap (fun i _ => {| item_embedding := Some [1%float; 0%float];
                                  item_index := Z.of_nat i |}) input).

Definition deadProvider (n : nat) (input : list jsstring) : response := Rejected.

(** Of a finished run: the [failed] flags of the records and the number of
    requests made. *)
Definition runSummary
    (result : option (outcome (list EmbeddingRecord) * list event))
  : option (list bool * nat) :=
  match result with
  | Some (Ok records, tr) => Some (failed <$> records, calls tr)
  | _ => None
  end.

(** What one request yields, as the [try] block reads the response. *)
Definition readResponse (r : response) : outcome (list EmbeddingRecord) :=
  match r with
  | Rejected => Throw AxiosError
  | NoData => Throw InvalidFormat
  | Data items =>
      match items with
      | [] => Ok []
      | first :: _ =>
          match item_embedding first with
          | None => Throw TypeError
          | Some _ => Ok (toRecord <$> items)
          end
      end
  end.

Definition failedAttempt (r : response) : Prop :=
  exists e, readResponse r = Throw e.

(** The trace of [k] failed requests, each followed by its backoff delay,
    and one last request; [r] is the retry count of the first one. *)
Fixpoint retryTrace (this : EmbeddingsService) (texts : list jsstring)
    (r k : nat) : list event :=
  match k with
  | 0 => [Post texts]
  | S k' => Post texts :: Delay (retryDelay this * 2 ^ r)
            :: retryTrace this texts (S r) k'
  end.

(** The provider answers every request with one item per input. *)
Definition aligned (provider : nat -> list jsstring -> response) : Prop :=
  forall n input items,
    provider n input = Data items -> length items = length input.

(** The records of one batch: the provider's items in its order, or the
    fallback records of the batch. *)
Definition batchOutcome (batch : list jsstring)
    (records : list EmbeddingRecord) : Prop :=
  records = fallbackRecords batch
  \/ exists items, length items = length batch /\ records = toRecord <$> items.

(** [records] is the concatenation, in batch order, of one outcome per
    batch of [size] texts. *)
Inductive batchwise (size : nat)
  : list jsstring -> list EmbeddingRecord -> Prop :=
| batchwise_nil : batchwise size [] []
| batchwise_cons texts records rest :
    texts <> [] ->
    batchOutcome (take size texts) records ->
    batchwise size (drop size texts) rest ->
    batchwise size texts (records ++ rest).

(** A vector of zero norm: every component is [+0] or [-0]. *)
Definition zeroVector (v : vector) : Prop :=
  Forall (fun x => x = 0%float \/ x = (-0)%float) v.

End Embeddings.

(** ** Sessions: bounded history behind Redis or an in-memory map *)

Module Sessions.

(** Instants are milliseconds since the epoch: [Date.now()], and what
    [new Date(iso).getTime()] gives back for a [toISOString()] value. *)
Record Session := {
  id : jsstring;
  created : Z;
  lastActivity : Z;
  messageCount : Z
}.

Record Message := {
  msg_id : jsstring;
  role : jsstring;
  msg_content : jsstring;
  timestamp : Z;
  sources : option (list jsstring)
}.

(** What is stored under a key: a session record or a message array.
    Redis holds the JSON text of the same values; [JSON.parse] of
    [JSON.stringify] gives the value back. *)
Inductive value :=
| SessionData (s : Session)
| MessageList (messages : list Message).

(** A Redis entry: the value and the instant at which it expires. *)
Record entry := {
  entry_value : value;
  expires : Z
}.

Record SessionManager := {
  redis : option (gmap jsstring entry);
  sessionTTL : Z;
  fallbackStorage : gmap jsstring value
}.

(** [parseInt(process.env.CHAT_HISTORY_TTL) || 86400]: [None] stands for
    [NaN]. *)
Definition constructor (CHAT_HISTORY_TTL : option Z) : SessionManager :=
  {| redis := None;
     sessionTTL := match CHAT_HISTORY_TTL with
                   | None | Some 0%Z => 86400
                   | Some n => n
                   end;
     fallbackStorage := ∅ |}.

(** [initialize]: [this.redis = getRedisClient()], [None] when there is no
    client. *)
Definition initialize (client : option (gmap jsstring entry))
    (this : SessionManager) : SessionManager :=
  {| redis := client;
     sessionTTL := sessionTTL this;
     fallbackStorage := fallbackStorage this |}.

Definition setRedis (db : gmap jsstring entry) (this : SessionManager)
  : SessionManager :=
  {| redis := Some db;
     sessionTTL := sessionTTL this;
     fallbackStorage := fallbackStorage this |}.

Definition setFallback (m : gmap jsstring value) (this : SessionManager)
  : SessionManager :=
  {| redis := redis this;
     sessionTTL := sessionTTL this;
     fallbackStorage := m |}.

Definition sessionKey (sessionId : jsstring) : jsstring :=
  str "session:" ++ sessionId.

Definition messagesKey (sessionId : jsstring) : jsstring :=
  str "messages:" ++ sessionId.

(** *** The Redis commands the manager uses *)

(** [SETEX key seconds value]; the server refuses a time to live that is
    not positive. *)
Definition redisSetex (key : jsstring) (seconds : Z) (v : value) (now : Z)
  : M SessionManager unit :=
  fun this =>
    match redis this with
    | None => (Throw TypeError, this)
    | Some db =>
        if (seconds <=? 0)%Z then (Throw RedisError, this)
        else (Ok tt,
              setRedis (<[key := {| entry_value := v;
                                    expires := now + seconds * 1000 |}]> db)
                       this)
    end.

Definition live (now : Z) (e : entry) : option value :=
  if (now <? expires e)%Z then Some (entry_value e) else None.

(** [GET key]: nothing once the entry has expired. *)
Definition redisGet (key : jsstring) (now : Z)
  : M SessionManager (option value) :=
  fun this =>
    match redis this with
    | None => (Throw TypeError, this)
    | Some db => (Ok (db !! key ≫= live now), this)
    end.

(** [DEL key] *)
Definition redisDel (key : jsstring) : M SessionManager unit :=
  fun this =>
    match redis this with
    | None => (Throw TypeError, this)
    | Some db => (Ok tt, setRedis (delete key db) this)
    end.

(** [this.fallbackStorage.set(key, v)] and [.delete(key)] *)
Definition fallbackSet (key : jsstring) (v : value) : M SessionManager unit :=
  fun this => (Ok tt, setFallback (<[key := v]> (fallbackStorage this)) this).

Definition fallbackDelete (key : jsstring) : M SessionManager unit :=
  fun this => (Ok tt, setFallback (delete key (fallbackStorage this)) this).

(** *** The methods.  Each [catch] logs and throws the error again; a call
    reads the clock once, at [now]. *)

Definition createSession (sessionId : jsstring) (now : Z)
  : M SessionManager value :=
  (let sessionData := SessionData {| id := sessionId;
                                     created := now;
                                     lastActivity := now;
                                     messageCount := 0 |} in
   this <- get ;;
   match redis this with
   | Some _ =>
       redisSetex (sessionKey sessionId) (sessionTTL this) sessionData now ;;;
       redisSetex (messagesKey sessionId) (sessionTTL this) (MessageList []) now
   | None =>
       fallbackSet (sessionKey sessionId) sessionData ;;;
       fallbackSet (messagesKey sessionId) (MessageList [])
   end ;;;
   ret sessionData)%js.

(** Whatever is stored under the session key is returned as it is; the
    session is created when nothing is. *)
Definition getSessionInfo (sessionId : jsstring) (now : Z)
  : M SessionManager value :=
  (this <- get ;;
   sessionData <- match redis this with
                  | Some _ => redisGet (sessionKey sessionId) now
                  | None => ret (fallbackStorage this !! sessionKey sessionId)
                  end ;;
   match sessionData with
   | None => createSession sessionId now
   | Some sessionData => ret sessionData
   end)%js.

(** [messages.push(message)], then
    [if (messages.length > 100) messages.splice(0, messages.length - 100)]. *)
Definition pushCapped (messages : list Message) (message : Message)
  : list Message :=
  let messages := messages ++ [message] in
  if decide (100 < length messages)
  then splice messages 0 (Z.of_nat (length messages) - 100)
  else messages.

(** [sessionData.lastActivity = ...; sessionData.messageCount = ...].  On
    an array the two assignments add properties that neither [JSON] nor
    the other methods read. *)
Definition touch (sessionData : value) (now : Z) (count : nat) : value :=
  match sessionData with
  | SessionData s =>
      SessionData {| id := id s;
                     created := created s;
                     lastActivity := now;
                     messageCount := Z.of_nat count |}
  | MessageList l => MessageList l
  end.

(** A stored value read as the message array: nothing stored is the empty
    array; [push], [length] and [slice] of a session record are not
    there, which the callers turn into a [TypeError]. *)
Definition asMessages (stored : option value) : option (list Message) :=
  match stored with
  | None => Some []
  | Some (MessageList l) => Some l
  | Some (SessionData _) => None
  end.

(** The Redis branch of [addMessage]. *)
Definition addMessageRedis (sessionId : jsstring) (message : Message)
    (now : Z) : M SessionManager unit :=
  (this <- get ;;
   messagesData <- redisGet (messagesKey sessionId) now ;;
   match asMessages messagesData with
   | None => throw TypeError
   | Some messages =>
       let messages := pushCapped messages message in
       redisSetex (messagesKey sessionId) (sessionTTL this)
         (MessageList messages) now ;;;
       sessionData <- getSessionInfo sessionId now ;;
       redisSetex (sessionKey sessionId) (sessionTTL this)
         (touch sessionData now (length messages)) now
   end)%js.

(** The in-memory branch of [addMessage]. *)
Definition addMessageFallback (sessionId : jsstring) (message : Message)
    (now : Z) : M SessionManager unit :=
  (this <- get ;;
   match asMessages (fallbackStorage this !! messagesKey sessionId) with
   | None => throw TypeError
   | Some messages =>
       let messages := pushCapped messages message in
       fallbackSet (messagesKey sessionId) (MessageList messages) ;;;
       this <- get ;;
       match fallbackStorage this !! sessionKey sessionId with
       | Some sessionData =>
           fallbackSet (sessionKey sessionId)
             (touch sessionData now (length messages))
       | None => ret tt
       end
   end)%js.

Definition addMessage (sessionId : jsstring) (message : Message) (now : Z)
  : M SessionManager unit :=
  (getSessionInfo sessionId now ;;;
   this <- get ;;
   match redis this with
   | Some _ => addMessageRedis sessionId message now
   | None => addMessageFallback sessionId message now
   end)%js.

(** [{ limit = 50, offset = 0 } = options] *)
Record options := {
  limit : option Z;
  offset : option Z
}.

Definition getMessages (sessionId : jsstring) (opts : options) (now : Z)
  : M SessionManager (list Message) :=
  (let limit := default 50%Z (limit opts) in
   let offset := default 0%Z (offset opts) in
   this <- get ;;
   messagesData <- match redis this with
                   | Some _ => redisGet (messagesKey sessionId) now
                   | None => ret (fallbackStorage this !! messagesKey sessionId)
                   end ;;
   match asMessages messagesData with
   | None => throw TypeError
   | Some messages =>
       let len := Z.of_nat (length messages) in
       let startIndex := Z.max 0 (len - limit - offset) in
       let endIndex := Z.max 0 (len - offset) in
       ret (slice messages startIndex endIndex)
   end)%js.

Definition deleteSession (sessionId : jsstring) : M SessionManager unit :=
  (this <- get ;;
   match redis this with
   | Some _ =>
       redisDel (sessionKey sessionId) ;;;
       redisDel (messagesKey sessionId)
   | None =>
       fallbackDelete (sessionKey sessionId) ;;;
       fallbackDelete (messagesKey sessionId)
   end)%js.

(** The test of the sweep:
    [key.startsWith('session:') && value.created] and
    [now - new Date(value.created).getTime() > this.sessionTTL * 1000].
    [created] of a session record is an ISO date text, never falsy; an
    array has no [created]. *)
Definition isExpired (this : SessionManager) (now : Z)
    (key : jsstring) (v : value) : bool :=
  startsWith (str "session:") key
  && match v with
     | SessionData s =>
         let sessionAge := (now - created s)%Z in
         bool_decide (sessionTTL this * 1000 < sessionAge)%Z
     | MessageList _ => false
     end.

(** The callback of [expiredSessions.forEach]. *)
Definition deleteExpired (this : SessionManager) (sessionKey : jsstring)
  : SessionManager :=
  let sessionId := replace (str "session:") [] sessionKey in
  setFallback
    (delete (messagesKey sessionId) (delete sessionKey (fallbackStorage this)))
    this.

(** One run of the callback of [setInterval]: collect the expired session
    keys, then delete each with its message list. *)
Definition sweep (now : Z) (this : SessionManager) : SessionManager :=
  let expiredSessions :=
    (List.filter (fun '(key, value) => isExpired this now key value)
                 (map_to_list (fallbackStorage this))).*1 in
  foldl deleteExpired this expiredSessions.

(** [startCleanupTimer]: the sweep runs every 60000 ms, and only when
    there is no Redis client. *)
Definition sweepInterval : Z := 60000.

Definition cleanupTick (now : Z) (this : SessionManager) : SessionManager :=
  match redis this with
  | None => sweep now this
  | Some _ => this
  end.

(** What a read of [key] sees at [now]. *)
Definition lookupKey (this : SessionManager) (key : jsstring) (now : Z)
  : option value :=
  match redis this with
  | Some db => db !! key ≫= live now
  | None => fallbackStorage this !! key
  end.


(** The page of the specification: skip the [offset] most recent
    messages, keep the [limit] most recent of the rest, oldest first. *)
Definition recentPage (limit offset : nat) (messages : list Message)
  : list Message :=
  reverse (take limit (drop offset (reverse messages))).

Definition msg (n : Z) : Message :=
  {| msg_id := []; role := str "user"; msg_content := [];
     timestamp := n; sources := None |}.

(** The manager of a process without Redis, before any call. *)
Definition fresh : SessionManager := constructor None.

(** The state a run leaves. *)
Definition after {A} (m : M SessionManager A) (this : SessionManager)
  : SessionManager := snd (m this).

End Sessions.

(** ** Views of the session store used by the properties *)

Module SessionsView.
Import Sessions.


(** The record [createSession] writes at [now]. *)
Definition freshSession (sessionId : jsstring) (now : Z) : value :=
  SessionData {| id := sessionId;
                 created := now;
                 lastActivity := now;
                 messageCount := 0 |}.


(** The Redis entry under [key], expired or not. *)
Definition rawRedis (this : SessionManager) (key : jsstring) : option entry :=
  redis this ≫= (fun db => db !! key).

(** [this'] has the backend and the time to live of [this], and the same
    content under every key but the two of [sessionId]. *)
Definition agreeOutside (sessionId : jsstring) (this this' : SessionManager)
  : Prop :=
  sessionTTL this' = sessionTTL this
  /\ (redis this' = None <-> redis this = None)
  /\ forall key,
       key <> sessionKey sessionId -> key <> messagesKey sessionId ->
       fallbackStorage this' !! key = fallbackStorage this !! key
       /\ rawRedis this' key = rawRedis this key.

(** A run of [m] changes nothing outside the two keys of [sessionId],
    whatever its outcome. *)
Definition frames {A} (sessionId : jsstring) (m : M SessionManager A) : Prop :=
  forall this, agreeOutside sessionId this (snd (m this)).

(** What any reader sees of session [other] is the same in both states. *)
Definition sameSession (other : jsstring) (this this' : SessionManager) : Prop :=
  forall t,
    lookupKey this' (sessionKey other) t = lookupKey this (sessionKey other) t
    /\ lookupKey this' (messagesKey other) t
       = lookupKey this (messagesKey other) t.

(** The in-memory store holds a session record of [sessionId] that the
    sweep at [now] finds older than the time to live. *)
Definition expiredAt (this : SessionManager) (now : Z) (sessionId : jsstring)
  : Prop :=
  exists s,
    fallbackStorage this !! sessionKey sessionId = Some (SessionData s)
    /\ (sessionTTL this * 1000 < now - created s)%Z.


End SessionsView.

(** ** The embeddings service: health check and the shape of a run *)

Module EmbeddingsHealth.
Import Embeddings.

(** The object [healthCheck] returns; [error] holds the caught error, whose
    message the source copies. *)
Record HealthReport := {
  status : jsstring;
  message : jsstring;
  embeddingDimension : option nat;
  error : option JS.error
}.

Section Service.
Variable this : EmbeddingsService.
Variable provider : nat -> list jsstring -> response.

(** [healthCheck]: nothing in its [try] throws but the call of
    [generateSingleEmbedding]. *)
Definition healthCheck (tr : list event) : option (HealthReport * list event) :=
  if noApiKey this then
    Some ({| status := str "degraded";
             message := str "Jina API key not configured";
             embeddingDimension := None;
             error := None |}, tr)
  else
    match generateSingleEmbedding this provider (str "Hello world") tr with
    | None => None
    | Some (Throw e, tr') =>
        Some ({| status := str "unhealthy";
                 message := str "Embeddings service error";
                 embeddingDimension := None;
                 error := Some e |}, tr')
    | Some (Ok testEmbedding, tr') =>
        let invalid :=
          {| status := str "unhealthy";
             message := str "Embeddings service returned invalid response";
             embeddingDimension := None;
             error := None |} in
        Some (match testEmbedding with
              | Some record =>
                  match embedding record with
                  | Some v =>
                      if decide (length v = 768) then
                        {| status := str "healthy";
                           message :=
                             str "Jina embeddings service is working correctly";
                           embeddingDimension := Some (length v);
                           error := None |}
                      else invalid
                  | None => invalid
                  end
              | None => invalid
              end, tr')
    end.
End Service.

(** The batches of [size] texts, in order. *)
Definition batchesOf (size : nat) (texts : list jsstring)
  : list (list jsstring) :=
  (fun k => take size (drop (k * size) texts))
    <$> seq 0 (Ingestion.ceilDiv (length texts) size).

(** One request per batch, 500 ms between two requests and none after the
    last. *)
Fixpoint batchTrace (batches : list (list jsstring)) : list event :=
  match batches with
  | [] => []
  | [batch] => [Post batch]
  | batch :: rest => Post batch :: Delay 500 :: batchTrace rest
  end.

(** The provider answers every request with a response the service
    accepts. *)
Definition neverFails (provider : nat -> list jsstring -> response) : Prop :=
  forall n input, exists records, readResponse (provider n input) = Ok records.

(** The records of the [n]-th response. *)
Definition answer (provider : nat -> list jsstring -> response)
    (n : nat) (input : list jsstring) : list EmbeddingRecord :=
  match readResponse (provider n input) with
  | Ok records => records
  | Throw _ => []
  end.

(** The records of successive responses, one per batch, the first of them
    being the [n]-th response. *)
Fixpoint answers (provider : nat -> list jsstring -> response)
    (n : nat) (batches : list (list jsstring)) : list EmbeddingRecord :=
  match batches with
  | [] => []
  | batch :: rest => answer provider n batch ++ answers provider (S n) rest
  end.

(** The record that stands for the text at [index] of a failed batch. *)
Definition fallbackRecord (index : nat) : EmbeddingRecord :=
  {| embedding := Some (replicate 768 0%float);
     index := Z.of_nat index;
     failed := true |}.

End EmbeddingsHealth.

(** ** The vector store: point ids and batched upserts *)

Module VectorStore.

(** ECMAScript [ToInt32] of an integral number. *)
Definition toInt32 (z : Z) : Z :=
  let int32bit := (z mod 2 ^ 32)%Z in
  if (2 ^ 31 <=? int32bit)%Z then (int32bit - 2 ^ 32)%Z else int32bit.

(** [a << count] *)
Definition shiftLeft (a count : Z) : Z :=
  toInt32 (Z.shiftl (toInt32 a) (Z.land count 31)).

(** [a & b] *)
Definition bitAnd (a b : Z) : Z := Z.land (toInt32 a) (toInt32 b).

(** The body of the loop of [generateValidPointId].  The sum stays far
    below 2^53, so the double arithmetic of the source is exact. *)
Definition hashStep (hash : Z) (char : N) : Z :=
  let hash := (shiftLeft hash 5 - hash + Z.of_N char)%Z in
  bitAnd hash hash.

Definition generateValidPointId (originalId : jsstring) : Z :=
  Z.abs (fold_left hashStep originalId 0%Z).

(** The polynomial hash in base 31 over the integers, to compare with. *)
Definition polynomial31 (s : jsstring) : Z :=
  fold_left (fun h c => (31 * h + Z.of_N c)%Z) s 0%Z.

(** Decimal digits of an array index, as a template literal prints it. *)
Fixpoint digits (d : Decimal.uint) : jsstring :=
  match d with
  | Decimal.Nil => []
  | Decimal.D0 d => 48%N :: digits d
  | Decimal.D1 d => 49%N :: digits d
  | Decimal.D2 d => 50%N :: digits d
  | Decimal.D3 d => 51%N :: digits d
  | Decimal.D4 d => 52%N :: digits d
  | Decimal.D5 d => 53%N :: digits d
  | Decimal.D6 d => 54%N :: digits d
  | Decimal.D7 d => 55%N :: digits d
  | Decimal.D8 d => 56%N :: digits d
  | Decimal.D9 d => 57%N :: digits d
  end.

Definition numberToString (n : nat) : jsstring := digits (Nat.to_uint n).

(** Payload values. *)
Inductive json :=
| JString (s : jsstring)
| JNumber (n : Z).

(** An element of the argument of [upsertVectors]; [id] is [None] when the
    field is missing. *)
Record Vector := {
  id : option jsstring;
  embedding : Embeddings.vector;
  content : jsstring;
  metadata : gmap jsstring json
}.

Record Point := {
  point_id : Z;
  point_vector : Embeddings.vector;
  payload : gmap jsstring json
}.

(** [vector.id || `point_${index}`]: a missing or empty id is falsy. *)
Definition idOrDefault (vector : Vector) (index : nat) : jsstring :=
  match id vector with
  | Some (c :: s) => c :: s
  | _ => str "point_" ++ numberToString index
  end.

(** The callback of [vectors.map]; in the payload the keys of the
    metadata, spread last, win over [content]. *)
Definition toPoint (index : nat) (vector : Vector) : Point :=
  {| point_id := generateValidPointId (idOrDefault vector index);
     point_vector := embedding vector;
     payload := metadata vector ∪ {[ str "content" := JString (content vector) ]} |}.

(** The Qdrant server as the service sees it: the points of the collection
    by id, and the upsert requests received so far. *)
Record Qdrant := {
  collection : gmap Z Point;
  sent : list (list Point)
}.

(** The client: whether, and with what error, the [n]-th request sent to
    the server is rejected. *)
Record QdrantClient := {
  rejects : nat -> option error
}.

Record VectorStoreService := {
  client : option QdrantClient
}.

(** An accepted upsert inserts or replaces each point under its id, in
    the order of the request. *)
Definition applyBatch (points : gmap Z Point) (batch : list Point)
  : gmap Z Point :=
  foldl (fun m p => <[point_id p := p]> m) points batch.

(** [client.upsert(collectionName, { wait: true, points: batch })] *)
Definition clientUpsert (c : QdrantClient) (batch : list Point)
  : M Qdrant unit :=
  fun st =>
    match rejects c (length (sent st)) with
    | Some e => (Throw e, {| collection := collection st;
                             sent := sent st ++ [batch] |})
    | None => (Ok tt, {| collection := applyBatch (collection st) batch;
                         sent := sent st ++ [batch] |})
    end.

Definition batchSize : nat := 100.

(** The [for] loop of [upsertVectors]. *)
Equations? upsertLoop (c : QdrantClient) (points : list Point) (i : nat)
    : M Qdrant unit by wf (length points - i) lt :=
  upsertLoop c points i with lt_dec i (length points) := {
    | left _ =>
        (clientUpsert c
           (slice points (Z.of_nat i) (Z.of_nat (i + batchSize))) ;;;
         upsertLoop c points (i + batchSize))%js
    | right _ => ret tt }.
Proof. unfold batchSize. lia. Qed.

Definition upsertVectors (this : VectorStoreService) (vectors : list Vector)
  : M Qdrant bool :=
  match client this with
  | None => ret false
  | Some c =>
      try_catch
        (let points := imap toPoint vectors in
         upsertLoop c points 0 ;;; ret true)%js
        (fun _ => ret false)
  end.

(** The batches of at most [batchSize] points, in order. *)
Definition batchesOf (points : list Point) : list (list Point) :=
  (fun k => take batchSize (drop (k * batchSize) points))
    <$> seq 0 (Ingestion.ceilDiv (length points) batchSize).

(** The last point of a list that carries a given id. *)
Definition lastWithId (pid : Z) (points : list Point) : option Point :=
  last (List.filter (fun p => bool_decide (point_id p = pid)) points).

(** A client whose [n]-th request (from 0) is the only one rejected. *)
Definition failsAt (n : nat) : QdrantClient :=
  {| rejects := fun k => if decide (k = n) then Some AxiosError else None |}.

(** A client whose requests are all accepted. *)
Definition reliable : QdrantClient := {| rejects := fun _ => None |}.

(** [n] vectors without an id. *)
Definition unnamedVectors (n : nat) : list Vector :=
  (fun _ => {| id := None; embedding := [1%float]; content := [];
               metadata := ∅ |}) <$> seq 0 n.

Definition emptyServer : Qdrant := {| collection := ∅; sent := [] |}.

Definition plainVector (name : string) (text : string) : Vector :=
  {| id := Some (str name);
     embedding := [1%float];
     content := str text;
     metadata := ∅ |}.

End VectorStore.

(** ** Chunking, for any content *)

Module Chunking.
Import Ingestion.

(** What one round of the loop of [chunkContent] builds at index [j * d]:
    the words from there up to [maxChunkSize] further, joined and
    trimmed. *)
Definition trimmedWindow (words : list jsstring) (maxChunkSize : Z)
    (d j : nat) : jsstring :=
  trim (join [space]
          (slice words (Z.of_nat (j * d)) (Z.of_nat (j * d) + maxChunkSize))).

(** [if (chunk.trim())]: the empty string is falsy. *)
Definition nonBlank (chunks : list jsstring) : list jsstring :=
  List.filter (fun chunk => negb (bool_decide (chunk = []))) chunks.

(** The trimmed windows of a content, one per round of the loop. *)
Definition trimmedWindows (content : jsstring) (maxChunkSize overlap : Z)
  : list jsstring :=
  let words := split space content in
  let d := Z.to_nat (maxChunkSize - overlap) in
  trimmedWindow words maxChunkSize d <$> seq 0 (ceilDiv (length words) d).

End Chunking.

(** ** From articles to chunks ready for embedding *)

Module Processing.

(** How a call ends.  [toISOString] of an invalid date throws a
    [RangeError]; the chunking loop may not end. *)
Inductive completion (A : Type) :=
| Returns (a : A)
| ThrowsRangeError
| RunsForever.
Arguments Returns {A} a.
Arguments ThrowsRangeError {A}.
Arguments RunsForever {A}.

Record Metadata := {
  title : jsstring;
  url : jsstring;
  source : jsstring;
  publishedAt : jsstring;
  author : option jsstring;
  description : option jsstring;
  image : option jsstring;
  chunkIndex : nat;
  totalChunks : nat
}.

Record ProcessedChunk := {
  id : jsstring;
  content : jsstring;
  metadata : Metadata
}.

(** [`${article.title}\n\n${article.content}`] *)
Definition fullContent (article : Ingestion.Article) : jsstring :=
  Ingestion.title article ++ [10; 10]%N ++ Ingestion.content article.

(** [`${article.url}-${index}`] *)
Definition chunkId (url : jsstring) (index : nat) : jsstring :=
  url ++ str "-" ++ VectorStore.numberToString index.

Section Process.
(** [article.publishedAt.toISOString()]: the printed form of the date an
    article carries, [None] when the date is invalid. *)
Variable toISOString : jsstring -> option jsstring.

(** The object pushed by the callback of [chunks.forEach], once
    [toISOString] has returned [iso]. *)
Definition processChunk (article : Ingestion.Article) (total : nat)
    (iso : jsstring) (index : nat) (chunk : jsstring) : ProcessedChunk :=
  {| id := chunkId (Ingestion.url article) index;
     content := chunk;
     metadata :=
       {| title := Ingestion.title article;
          url := Ingestion.url article;
          source := Ingestion.source article;
          publishedAt := iso;
          author := Ingestion.author article;
          description := Ingestion.description article;
          image := Ingestion.image article;
          chunkIndex := index;
          totalChunks := total |} |}.

(** The [for ... of] loop.  The callback throws on its first call when the
    date is invalid; with no chunk it is not called. *)
Fixpoint processLoop (articles : list Ingestion.Article)
    (processedChunks : list ProcessedChunk)
  : completion (list ProcessedChunk) :=
  match articles with
  | [] => Returns processedChunks
  | article :: rest =>
      match Ingestion.chunkContentDefault (fullContent article) with
      | None => RunsForever
      | Some chunks =>
          match chunks, toISOString (Ingestion.publishedAt article) with
          | [], _ => processLoop rest processedChunks
          | _ :: _, None => ThrowsRangeError
          | _ :: _, Some iso =>
              processLoop rest
                (processedChunks
                 ++ imap (processChunk article (length chunks) iso) chunks)
          end
      end
  end.

Definition processArticlesForEmbedding (articles : list Ingestion.Article)
  : completion (list ProcessedChunk) :=
  processLoop articles [].

Definition validDate (article : Ingestion.Article) : bool :=
  match toISOString (Ingestion.publishedAt article) with
  | Some _ => true
  | None => false
  end.

(** The chunks one article with a valid date contributes. *)
Definition chunksOfArticle (article : Ingestion.Article)
  : list ProcessedChunk :=
  match Ingestion.chunkContentDefault (fullContent article),
        toISOString (Ingestion.publishedAt article) with
  | Some chunks, Some iso =>
      imap (processChunk article (length chunks) iso) chunks
  | _, _ => []
  end.
End Process.

(** What every processed chunk satisfies. *)
Definition wellFormed (chunk : ProcessedChunk) : Prop :=
  content chunk <> []
  /\ id chunk = chunkId (url (metadata chunk)) (chunkIndex (metadata chunk))
  /\ chunkIndex (metadata chunk) < totalChunks (metadata chunk).

Definition sampleArticle (title url : string) : Ingestion.Article :=
  {| Ingestion.title := str title;
     Ingestion.content := str "Some text of the article.";
     Ingestion.url := str url;
     Ingestion.source := str "RSS Feed";
     Ingestion.publishedAt := str "2024-01-01T00:00:00.000Z";
     Ingestion.author := None;
     Ingestion.description := None;
     Ingestion.image := None |}.

(** Dates are all valid but the one spelled ["Invalid Date"]. *)
Definition sampleISO (date : jsstring) : option jsstring :=
  if decide (date = str "Invalid Date") then None else Some date.

End Processing.

(** ** The chat service: the mock streaming response *)

Module Chat.

Definition quote : jsstring := [34%N].
Definition newline : jsstring := [10%N].

(** The template literal of [getMockStreamingResponse], with its escapes
    read. *)
Definition fullResponse (message : jsstring) : jsstring :=
  str "I understand you're asking about: " ++ quote ++ message ++ quote
  ++ newline ++ newline
  ++ str "This is a **streaming demo response** to show how the real-time chat interface works."
  ++ newline ++ newline
  ++ str "### How Streaming Works:"
  ++ newline
  ++ str "- Messages are sent in real-time chunks"
  ++ newline
  ++ str "- You see the response being " ++ quote ++ str "typed" ++ quote
  ++ str " out"
  ++ newline
  ++ str "- Provides better user experience"
  ++ newline
  ++ str "- Reduces perceived latency"
  ++ newline ++ newline
  ++ str "### Next Steps:"
  ++ newline
  ++ str "1. Configure GEMINI_API_KEY for AI responses"
  ++ newline
  ++ str "2. Set up vector database for RAG functionality"
  ++ newline
  ++ str "3. Add news ingestion pipeline"
  ++ newline
  ++ str "4. Enable source citations"
  ++ newline ++ newline
  ++ str "*This demo shows the interface is working perfectly! "
  ++ [0xF8FF; 0xFC; 0xE9; 0xE2]%N
  ++ str "*".

(** What the method does to the outside world: a call of [onChunk], or a
    timer of so many milliseconds awaited. *)
Inductive event :=
| Chunk (text : jsstring)
| Sleep (ms : float).

Fixpoint chunkTexts (tr : list event) : list jsstring :=
  match tr with
  | [] => []
  | Chunk text :: tr' => text :: chunkTexts tr'
  | Sleep _ :: tr' => chunkTexts tr'
  end.

Section Stream.
(** The value of the [i]-th call of [Math.random()] made by the loop. *)
Variable random : nat -> float.

(** One round of the loop, on [(currentText, trace)]. *)
Definition streamStep (words : list jsstring)
    (st : jsstring * list event) (i : nat) : jsstring * list event :=
  let '(currentText, tr) := st in
  let word := nth i words [] in
  (currentText ++ (if decide (0 < i) then [Ingestion.space] else []) ++ word,
   tr ++ [Chunk (word ++ if decide (i < length words - 1)
                         then [Ingestion.space] else []);
          Sleep (50 + random i * 100)%float]).

(** The loop; the method returns nothing, the model returns the final
    [currentText] and the trace. *)
Definition getMockStreamingResponse (message : jsstring) (tr : list event)
  : jsstring * list event :=
  let words := split Ingestion.space (fullResponse message) in
  fold_left (streamStep words) (seq 0 (length words)) ([], tr).
End Stream.

(** Number of spaces of a string. *)
Definition spaces (s : jsstring) : nat :=
  length (List.filter (fun c => (c =? Ingestion.space)%N) s).

End Chat.

(** ** The embeddings service: what a run requests and returns *)

Module EmbeddingsRuns.
Import Embeddings.

(** The inputs of the requests of a trace, in order. *)
Fixpoint posts (tr : list event) : list (list jsstring) :=
  match tr with
  | [] => []
  | Post input :: tr' => input :: posts tr'
  | Delay _ :: tr' => posts tr'
  end.

(** A run of the batch loop over the texts still to embed, [n] requests
    having been made before it: [batchRuns n texts records events].  For
    the first batch of [batchSize] texts there are [k <= maxRetries] failed
    requests, numbered [n] to [n + k - 1], each followed by its backoff
    delay; the records of the batch are what request [n + k] answers for
    that very batch, or, when that request fails too at the retry ceiling,
    the fallback records of the batch; 500 ms are waited when texts remain;
    the rest of the texts follows in the same way, from request
    [n + k + 1] on, and its records come after those of the batch. *)
Inductive batchRuns (this : EmbeddingsService)
    (provider : nat -> list jsstring -> response)
  : nat -> list jsstring -> list EmbeddingRecord -> list event -> Prop :=
| batchRuns_nil n : batchRuns this provider n [] [] []
| batchRuns_cons n texts k records rest events :
    texts <> [] ->
    k <= maxRetries this ->
    (forall a, a < k ->
       failedAttempt (provider (n + a) (take (batchSize this) texts))) ->
    (readResponse (provider (n + k) (take (batchSize this) texts)) = Ok records
     \/ (k = maxRetries this
         /\ failedAttempt (provider (n + k) (take (batchSize this) texts))
         /\ records = fallbackRecords (take (batchSize this) texts))) ->
    batchRuns this provider (n + S k) (drop (batchSize this) texts) rest events ->
    batchRuns this provider n texts (records ++ rest)
      (retryTrace this (take (batchSize this) texts) 0 k
       ++ (if decide (batchSize this < length texts) then [Delay 500] else [])
       ++ events).

End EmbeddingsRuns.

(* ================================================================= *)
(** * Properties *)

(** Split a conjunction into its parts, and nothing else. *)
Ltac conjuncts := repeat match goal with |- _ /\ _ => split end.

(** ** Facts about the built-ins *)

Module JSFacts.


Lemma slice_window {A} (l : list A) (i n : Z) :
  (0 <= i < Z.of_nat (length l))%Z -> (0 <= n)%Z ->
  slice l i (i + n) = take (Z.to_nat n) (drop (Z.to_nat i) l).
Proof.
  intros Hi Hn. unfold slice, relIndex.
  destruct (Z.ltb_spec i 0); [lia|].
  destruct (Z.ltb_spec (i + n) 0); [lia|].
  replace (Z.to_nat (Z.min i (Z.of_nat (length l)))) with (Z.to_nat i) by lia.
  destruct (decide (i + n <= Z.of_nat (length l))%Z).
  - f_equal. lia.
  - rewrite !take_ge; [reflexivity | rewrite length_drop; lia ..].
Qed.

End JSFacts.

Import JSFacts.

Module IngestionSpec.
Import Ingestion.

Example chunk_ex1 :
  chunkContent (str "a b c d e") 2 1
  = Some [str "a b"; str "b c"; str "c d"; str "d e"; str "e"].
Proof. vm_compute. reflexivity. Qed.

Example chunk_ex2 :
  chunkContent (str "a   b   c      ") 3 0 = Some [str "a"; str "b"; str "c"].
Proof. vm_compute. reflexivity. Qed.

Example dedup_ex :
  title <$> removeDuplicates asciiLower
    [ Build_Article (str "Hello") [] [] [] [] None None None;
      Build_Article (str "World") [] [] [] [] None None None;
      Build_Article (str "HELLO") [] [] [] [] None None None ]
  = [str "Hello"; str "World"].
Proof. vm_compute. reflexivity. Qed.

(** *** Strings: [split], [join] and [trim] *)

Lemma split_not_nil sep s : split sep s <> [].
Proof.
  destruct s as [|c s]; simpl; [discriminate|].
  destruct (c =? sep)%N; [discriminate|].
  destruct (split sep s); discriminate.
Qed.

Lemma split_no_sep sep s : Forall (fun w => sep ∉ w) (split sep s).
Proof.
  induction s as [|c s IH]; simpl.
  - repeat constructor. apply not_elem_of_nil.
  - destruct (N.eqb_spec c sep) as [->|Hne].
    + constructor; [apply not_elem_of_nil | exact IH].
    + destruct (split sep s) as [|w ws].
      * repeat constructor. rewrite list_elem_of_singleton. congruence.
      * inversion IH as [|? ? Hw Hws]; subst. constructor; [|exact Hws].
        rewrite elem_of_cons. intros [Heq|Hin]; [congruence | contradiction].
Qed.

Lemma split_word sep w : sep ∉ w -> split sep w = [w].
Proof.
  induction w as [|c w IH]; intros Hw; simpl; [reflexivity|].
  rewrite not_elem_of_cons in Hw. destruct Hw as [Hne Hw].
  destruct (N.eqb_spec c sep) as [->|_]; [congruence|].
  rewrite (IH Hw). reflexivity.
Qed.

Lemma split_app_sep sep w s :
  sep ∉ w -> split sep (w ++ sep :: s) = w :: split sep s.
Proof.
  induction w as [|c w IH]; intros Hw; simpl.
  - rewrite N.eqb_refl. reflexivity.
  - rewrite not_elem_of_cons in Hw. destruct Hw as [Hne Hw].
    destruct (N.eqb_spec c sep) as [->|_]; [congruence|].
    rewrite (IH Hw). reflexivity.
Qed.

Lemma split_join sep ws :
  ws <> [] -> Forall (fun w => sep ∉ w) ws -> split sep (join [sep] ws) = ws.
Proof.
  induction ws as [|w ws IH]; intros Hne Hall; [congruence|].
  inversion Hall as [|? ? Hw Hws]; subst.
  destruct ws as [|w2 ws].
  - simpl. apply split_word, Hw.
  - change (join [sep] (w :: w2 :: ws)) with (w ++ sep :: join [sep] (w2 :: ws)).
    rewrite split_app_sep by exact Hw.
    rewrite IH; [reflexivity | discriminate | exact Hws].
Qed.

Lemma cleanWord_ends w :
  cleanWord w = true ->
  (exists a, head w = Some a /\ isWhiteSpace a = false)
  /\ (exists b, last w = Some b /\ isWhiteSpace b = false).
Proof.
  unfold cleanWord. destruct (head w) as [a|]; [|discriminate].
  destruct (last w) as [b|]; [|discriminate].
  intros [Ha Hb]%andb_prop. apply negb_true_iff in Ha, Hb.
  split; [exists a | exists b]; split; trivial.
Qed.

Lemma ends_cleanWord w a b :
  head w = Some a -> isWhiteSpace a = false ->
  last w = Some b -> isWhiteSpace b = false -> cleanWord w = true.
Proof.
  intros Hh Ha Hl Hb. unfold cleanWord. rewrite Hh, Hl, Ha, Hb. reflexivity.
Qed.

Lemma cleanWord_join ws :
  ws <> [] -> Forall (fun w => cleanWord w = true) ws ->
  cleanWord (join [space] ws) = true.
Proof.
  induction ws as [|w ws IH]; intros Hne Hall; [congruence|].
  inversion Hall as [|? ? Hw Hws]; subst.
  destruct ws as [|w2 ws]; [exact Hw|].
  change (join [space] (w :: w2 :: ws))
    with (w ++ space :: join [space] (w2 :: ws)).
  destruct (cleanWord_ends _ Hw) as [(a & Hha & Ha) _].
  destruct (cleanWord_ends _ (IH ltac:(discriminate) Hws)) as [_ (b & Hlb & Hb)].
  apply (ends_cleanWord _ a b); [|exact Ha| |exact Hb].
  - rewrite head_app. destruct w; [discriminate|]. exact Hha.
  - rewrite last_app, last_cons, Hlb. reflexivity.
Qed.

Lemma trimStart_id s a :
  head s = Some a -> isWhiteSpace a = false -> trimStart s = s.
Proof.
  destruct s as [|c s]; simpl; [discriminate|].
  intros [= ->] ->. reflexivity.
Qed.

Lemma trim_cleanWord s : cleanWord s = true -> trim s = s /\ s <> [].
Proof.
  intros Hs. destruct (cleanWord_ends _ Hs) as [(a & Hha & Ha) (b & Hlb & Hb)].
  split; [|intros ->; discriminate].
  unfold trim, trimEnd. rewrite (trimStart_id s a Hha Ha).
  rewrite (trimStart_id (reverse s) b); [apply reverse_involutive| |exact Hb].
  rewrite head_reverse. exact Hlb.
Qed.

(** *** The chunking loop *)

Lemma chunkLoop_unfold words maxChunkSize step i chunks :
  chunkLoop words maxChunkSize step i chunks
  = if Z_lt_dec i (Z.of_nat (length words)) then
      if Z_lt_dec 0 step then
        let chunk := join [space] (slice words i (i + maxChunkSize)) in
        chunkLoop words maxChunkSize step (i + step)
          (match trim chunk with
           | [] => chunks
           | _ :: _ => chunks ++ [trim chunk]
           end)
      else None
    else Some chunks.
Proof.
  rewrite chunkLoop_equation_1.
  destruct (Z_lt_dec i (Z.of_nat (length words))); simpl; [|reflexivity].
  destruct (Z_lt_dec 0 step); simpl; reflexivity.
Qed.

Lemma ceilDiv_bounds w d :
  0 < d ->
  w <= ceilDiv w d * d /\ (forall k, k < ceilDiv w d -> k * d < w).
Proof.
  intros Hd. unfold ceilDiv.
  pose proof (Nat.div_mod_eq (w + d - 1) d) as Hdm.
  pose proof (Nat.mod_upper_bound (w + d - 1) d ltac:(lia)) as Hmod.
  split; [nia|]. intros k Hk. nia.
Qed.

Section Windows.
Variable words : list jsstring.
Variables maxChunkSize step : Z.
Hypothesis Hstep : (0 < step)%Z.
Hypothesis Hsize : (0 < maxChunkSize)%Z.
Hypothesis Hclean : Forall (fun w => cleanWord w = true) words.

Local Abbreviation size := (Z.to_nat maxChunkSize).
Local Abbreviation d := (Z.to_nat step).

Lemma window_words j :
  j * d < length words ->
  take size (drop (j * d) words) <> []
  /\ Forall (fun w => cleanWord w = true) (take size (drop (j * d) words)).
Proof using All.
  intros Hj. split.
  - intros Hnil. apply (f_equal length) in Hnil.
    rewrite length_take, length_drop in Hnil. simpl in Hnil. lia.
  - apply Forall_take, Forall_drop, Hclean.
Qed.

Lemma chunkLoop_windows m : forall k chunks,
  k + m = ceilDiv (length words) d ->
  chunkLoop words maxChunkSize step (Z.of_nat (k * d)) chunks
  = Some (chunks ++ (window words size d <$> seq k m)).
Proof using All.
  destruct (ceilDiv_bounds (length words) d ltac:(lia)) as [Hup Hlow].
  induction m as [|m IH]; intros k chunks Hk; rewrite chunkLoop_unfold.
  - destruct (Z_lt_dec _ _) as [Hlt|_]; [|simpl; rewrite app_nil_r; reflexivity].
    rewrite Nat.add_0_r in Hk. subst k. lia.
  - specialize (Hlow k ltac:(lia)).
    destruct (Z_lt_dec _ _) as [_|Hge]; [|lia].
    destruct (Z_lt_dec 0 step) as [_|Hno]; [|lia].
    cbv zeta. rewrite slice_window; [|split; [apply Nat2Z.is_nonneg|]|]; [|lia..].
    rewrite Nat2Z.id.
    destruct (window_words k Hlow) as [Hne Hcl].
    destruct (trim_cleanWord _ (cleanWord_join _ Hne Hcl)) as [-> Hj].
    destruct (join [space] (take size (drop (k * d) words))) as [|c w] eqn:Hw;
      [congruence|].
    replace (Z.of_nat (k * d) + step)%Z with (Z.of_nat (S k * d))
      by (simpl; rewrite Nat2Z.inj_add; lia).
    rewrite IH by lia. simpl seq. rewrite fmap_cons, <- app_assoc.
    unfold window at 2. rewrite Hw. reflexivity.
Qed.

Lemma wordsOf_window j :
  j * d < length words ->
  Forall (fun w => space ∉ w) words ->
  wordsOf (window words size d j) = take size (drop (j * d) words).
Proof using All.
  intros Hj Hsep. destruct (window_words j Hj) as [Hne _].
  apply split_join; [exact Hne|]. apply Forall_take, Forall_drop, Hsep.
Qed.
End Windows.

Lemma concat_windows {A} (l : list A) (d m : nat) :
  concat ((fun i => take d (drop (i * d) l)) <$> seq 0 m) = take (m * d) l.
Proof.
  induction m as [|m IH]; [reflexivity|].
  rewrite seq_S, fmap_app, concat_app, IH. simpl.
  rewrite app_nil_r, take_take_drop. f_equal. lia.
Qed.

(** C3, as amended: when the words of the content, as [split(" ")] yields
    them, are non-empty and carry no white space at their ends (a
    single-spaced text), and [0 <= overlap < maxChunkSize], then
    [chunkContent] returns exactly [ceil(W / (maxChunkSize - overlap))]
    chunks, each of at most [maxChunkSize] words, and the first chunk
    followed by the later chunks without their first [overlap] words is
    the original word sequence. *)
Theorem chunkContent_single_spaced
    (content : jsstring) (maxChunkSize overlap : Z) :
  (0 <= overlap < maxChunkSize)%Z ->
  Forall (fun w => cleanWord w = true) (split space content) ->
  exists chunks,
    chunkContent content maxChunkSize overlap = Some chunks
    /\ length chunks
       = ceilDiv (length (split space content))
                 (Z.to_nat (maxChunkSize - overlap))
    /\ Forall (fun c => (Z.of_nat (length (wordsOf c)) <= maxChunkSize)%Z) chunks
    /\ removeOverlap (Z.to_nat overlap) chunks = split space content.
Proof.
  intros Hov Hclean.
  set (words := split space content) in *.
  set (step := (maxChunkSize - overlap)%Z).
  set (d := Z.to_nat step). set (size := Z.to_nat maxChunkSize).
  set (n := ceilDiv (length words) d).
  assert (Hstep : (0 < step)%Z) by (unfold step; lia).
  assert (Hsize : (0 < maxChunkSize)%Z) by lia.
  assert (Hsep : Forall (fun w => space ∉ w) words) by apply split_no_sep.
  assert (Hlen : 0 < length words).
  { pose proof (split_not_nil space content) as Hnil. fold words in Hnil.
    destruct words; [congruence | simpl; lia]. }
  destruct (ceilDiv_bounds (length words) d ltac:(lia)) as [Hup Hlow].
  fold n in Hup, Hlow.
  assert (Hn : 0 < n) by (destruct n; [simpl in Hup; lia | lia]).
  pose proof (chunkLoop_windows words maxChunkSize step Hstep Hsize Hclean
                n 0 [] eq_refl) as Hloop.
  fold d size in Hloop. change (Z.of_nat (0 * d)) with 0%Z in Hloop.
  rewrite app_nil_l in Hloop.
  assert (Hwords : forall j, j < n ->
            wordsOf (window words size d j) = take size (drop (j * d) words)).
  { intros j Hj. apply wordsOf_window; auto. }
  exists (window words size d <$> seq 0 n). repeat split.
  - unfold chunkContent. fold words step. rewrite Hloop.
    destruct n as [|n']; [lia | reflexivity].
  - rewrite length_fmap, length_seq. reflexivity.
  - apply Forall_fmap, Forall_seq. intros j Hj. simpl.
    rewrite Hwords by lia. rewrite length_take. lia.
  - destruct n as [|n']; [lia|]. simpl seq. rewrite fmap_cons. simpl removeOverlap.
    rewrite Hwords by lia. simpl drop.
    rewrite <- fmap_S_seq, <- !list_fmap_compose.
    assert (Hpieces :
      (fun c => drop (Z.to_nat overlap) (wordsOf c)) ∘ window words size d ∘ S
        <$> seq 0 n'
      = (fun i => take d (drop (i * d) (drop size words))) <$> seq 0 n').
    { apply Forall_fmap_ext, Forall_seq. intros j Hj. simpl.
      rewrite Hwords by lia. rewrite drop_drop.
      replace size with (Z.to_nat overlap + d) by (unfold size, d, step; lia).
      rewrite <- take_drop_commute, drop_drop. f_equal. f_equal. lia. }
    rewrite Hpieces, concat_windows, take_take_drop.
    apply take_ge. simpl in Hup.
    assert (d <= size) by (unfold size, d, step; lia). lia.
Qed.

Lemma chunkContent_single_spaced_witness :
  exists chunks,
    chunkContent (str "a b c d e") 2 1 = Some chunks
    /\ length chunks = ceilDiv (length (split space (str "a b c d e"))) (Z.to_nat (2 - 1))
    /\ Forall (fun c => (Z.of_nat (length (wordsOf c)) <= 2)%Z) chunks
    /\ removeOverlap (Z.to_nat 1) chunks = split space (str "a b c d e").
Proof.
  apply (chunkContent_single_spaced (str "a b c d e") 2 1).
  - lia.
  - vm_compute. repeat constructor.
Defined.

(** C3 fails as stated: a text with runs of spaces splits into empty
    words, whole windows of them trim to nothing and are dropped.  Here the
    code splits 13 words (ceiling 5 for a stride of 3) and returns 3
    chunks; counting only the 3 non-empty words the ceiling is 1. *)
Lemma chunkContent_spaces_counterexample :
  chunkContent (str "a   b   c      ") 3 0 = Some [str "a"; str "b"; str "c"]
  /\ ~ chunkingProperty (str "a   b   c      ") 3 0
  /\ ~ withinOne 3 (ceilDiv 3 (Z.to_nat (3 - 0))).
Proof.
  assert (Hrun0 : chunkContent (str "a   b   c      ") 3 0
                  = Some [str "a"; str "b"; str "c"])
    by (vm_compute; reflexivity).
  split; [exact Hrun0|]. split.
  - intros (chunks & Hrun & [_ Hcount] & _).
    rewrite Hrun0 in Hrun. injection Hrun as <-.
    vm_compute in Hcount. lia.
  - intros [Hcount _]. vm_compute in Hcount. lia.
Qed.

(** *** Deduplication *)

Section RemoveDuplicatesSpec.
Variable toLowerCase : jsstring -> jsstring.

Local Abbreviation key := (normalizedKey toLowerCase).
Local Abbreviation withKey k := (fun a : Article => key a = k).




End RemoveDuplicatesSpec.


End IngestionSpec.

Module EmbeddingsSpec.
Import Embeddings.

(** *** One batch: retries, backoff, fallback *)

Section ServiceSpec.
Variable this : EmbeddingsService.
Variable provider : nat -> list jsstring -> response.

Lemma requestBatch_run texts tr :
  requestBatch provider texts tr
  = (readResponse (provider (calls tr) texts), tr ++ [Post texts]).
Proof.
  unfold requestBatch, bind, axiosPost, readResponse.
  destruct (provider (calls tr) texts) as [| |items]; try reflexivity.
  destruct items as [|first rest]; [reflexivity|]. simpl.
  destruct (item_embedding first); reflexivity.
Qed.

Lemma generateBatchEmbeddings_unfold texts retryCount tr :
  generateBatchEmbeddings this provider texts retryCount tr
  = match requestBatch provider texts tr with
    | (Ok embeddings, tr1) => (Ok embeddings, tr1)
    | (Throw _, tr1) =>
        if lt_dec retryCount (maxRetries this) then
          generateBatchEmbeddings this provider texts (retryCount + 1)
            (tr1 ++ [Delay (retryDelay this * 2 ^ retryCount)])
        else (Ok (fallbackRecords texts), tr1)
    end.
Proof.
  rewrite generateBatchEmbeddings_equation_1.
  destruct (lt_dec retryCount (maxRetries this)); simpl;
    unfold try_catch; destruct (requestBatch provider texts tr) as [[a|e] tr1];
    reflexivity.
Qed.

Lemma calls_app tr1 tr2 : calls (tr1 ++ tr2) = calls tr1 + calls tr2.
Proof.
  induction tr1 as [|[input|ms] tr1 IH]; simpl; [reflexivity| |]; rewrite IH; reflexivity.
Qed.

Lemma calls_retryTrace texts r k : calls (retryTrace this texts r k) = S k.
Proof.
  revert r. induction k as [|k IH]; intros r; simpl; [reflexivity|].
  rewrite IH. reflexivity.
Qed.

Lemma delays_retryTrace texts r k :
  delays (retryTrace this texts r k)
  = (fun a => retryDelay this * 2 ^ a) <$> seq r k.
Proof.
  revert r. induction k as [|k IH]; intros r; simpl; [reflexivity|].
  rewrite IH. reflexivity.
Qed.

(** From retry count [r] the method makes [k + 1] requests for some
    [k] with [r + k <= maxRetries]: [k] failed ones, each followed by
    its delay, and a last one that either succeeds or, at the ceiling,
    is replaced by the fallback records. *)
Lemma generateBatchEmbeddings_run texts n : forall r tr,
  maxRetries this - r <= n ->
  exists k records,
    r + k <= Nat.max r (maxRetries this)
    /\ generateBatchEmbeddings this provider texts r tr
       = (Ok records, tr ++ retryTrace this texts r k)
    /\ (forall a, a < k -> failedAttempt (provider (calls tr + a) texts))
    /\ (readResponse (provider (calls tr + k) texts) = Ok records
        \/ (maxRetries this <= r + k
            /\ failedAttempt (provider (calls tr + k) texts)
            /\ records = fallbackRecords texts)).
Proof.
  induction n as [|n IH]; intros r tr Hn;
    rewrite generateBatchEmbeddings_unfold, requestBatch_run;
    destruct (readResponse (provider (calls tr) texts)) as [records|e] eqn:Hread.
  1, 3: exists 0, records; rewrite !Nat.add_0_r; repeat split;
        [lia | intros a Ha; lia | left; exact Hread].
  - destruct (lt_dec r (maxRetries this)) as [Hlt|Hge]; [lia|].
    exists 0, (fallbackRecords texts). rewrite !Nat.add_0_r. repeat split.
    + lia.
    + intros a Ha; lia.
    + right. repeat split; [lia | exists e; exact Hread].
  - destruct (lt_dec r (maxRetries this)) as [Hlt|Hge].
    + destruct (IH (r + 1) ((tr ++ [Post texts])
                  ++ [Delay (retryDelay this * 2 ^ r)]) ltac:(lia))
        as (k & records & Hk & Hrun & Hfail & Hlast).
      rewrite !calls_app in Hfail, Hlast. simpl in Hfail, Hlast.
      rewrite Nat.add_0_r in Hfail, Hlast.
      exists (S k), records. repeat split.
      * lia.
      * rewrite Hrun. simpl. rewrite <- !app_assoc. simpl.
        replace (r + 1) with (S r) by lia. reflexivity.
      * intros [|a] Ha.
        -- rewrite Nat.add_0_r. exists e. exact Hread.
        -- replace (calls tr + S a) with (calls tr + 1 + a) by lia.
           apply Hfail. lia.
      * replace (calls tr + S k) with (calls tr + 1 + k) by lia.
        destruct Hlast as [Hok|(Hceil & Hf & Hrec)]; [left; exact Hok|].
        right. repeat split; [lia | exact Hf | exact Hrec].
    + exists 0, (fallbackRecords texts). rewrite !Nat.add_0_r. repeat split.
      * lia.
      * intros a Ha; lia.
      * right. repeat split; [lia | exists e; exact Hread].
Qed.
End ServiceSpec.

(** C8: whatever the provider does, [generateBatchEmbeddings] returns
    (it never raises and the recursion ends) after [k + 1] requests with
    [k <= maxRetries], hence at most [maxRetries + 1] of them (4 with the
    constructor's value); its trace is request, delay
    [retryDelay * 2^0], request, delay [retryDelay * 2^1], ..., request;
    and when the last allowed request fails too the result is the
    fallback records. *)
Theorem generateBatchEmbeddings_bounded_retries
    (this : EmbeddingsService) (provider : nat -> list jsstring -> response)
    (texts : list jsstring) (tr : list event) :
  (exists k records,
    k <= maxRetries this
    /\ generateBatchEmbeddings this provider texts 0 tr
       = (Ok records, tr ++ retryTrace this texts 0 k)
    /\ calls (retryTrace this texts 0 k) = k + 1
    /\ delays (retryTrace this texts 0 k)
       = (fun attempt => retryDelay this * 2 ^ attempt) <$> seq 0 k
    /\ (forall a, a < k -> failedAttempt (provider (calls tr + a) texts))
    /\ (readResponse (provider (calls tr + k) texts) = Ok records
        \/ (k = maxRetries this
            /\ failedAttempt (provider (calls tr + k) texts)
            /\ records = fallbackRecords texts)))
  /\ (forall key, maxRetries (constructor key) + 1 = 4).
Proof.
  split; [|reflexivity].
  destruct (generateBatchEmbeddings_run this provider texts (maxRetries this)
              0 tr ltac:(lia)) as (k & records & Hk & Hrun & Hfail & Hlast).
  exists k, records. repeat split.
  - lia.
  - exact Hrun.
  - rewrite calls_retryTrace. lia.
  - apply delays_retryTrace.
  - exact Hfail.
  - destruct Hlast as [Hok|(Hceil & Hf & Hrec)]; [left; exact Hok|].
    right. repeat split; [lia | exact Hf | exact Hrec].
Qed.

(** C5: when every request for the batch fails, [generateBatchEmbeddings]
    gives up after [maxRetries] retries and returns one record per text,
    in which the vector is 768 zeros, [failed] is set and [index] is the
    position of the text in the batch. *)
Theorem generateBatchEmbeddings_all_failed
    (this : EmbeddingsService) (provider : nat -> list jsstring -> response)
    (texts : list jsstring) (tr : list event) :
  (forall n, failedAttempt (provider n texts)) ->
  generateBatchEmbeddings this provider texts 0 tr
  = (Ok (fallbackRecords texts),
     tr ++ retryTrace this texts 0 (maxRetries this))
  /\ length (fallbackRecords texts) = length texts
  /\ (forall i text, texts !! i = Some text ->
        fallbackRecords texts !! i
        = Some {| embedding := Some (replicate 768 0%float);
                  index := Z.of_nat i;
                  failed := true |})
  /\ length (replicate 768 0%float) = 768
  /\ Forall (fun x => x = 0%float) (replicate 768 0%float).
Proof.
  intros Hdead.
  destruct (generateBatchEmbeddings_run this provider texts (maxRetries this)
              0 tr ltac:(lia)) as (k & records & Hk & Hrun & _ & Hlast).
  conjuncts.
  - destruct Hlast as [Hok|(Hceil & _ & ->)].
    + destruct (Hdead (calls tr + k)) as [e He]. congruence.
    + replace k with (maxRetries this) in Hrun by lia. exact Hrun.
  - apply length_imap.
  - intros i text Hi. unfold fallbackRecords.
    rewrite list_lookup_imap, Hi. reflexivity.
  - apply length_replicate.
  - apply Forall_replicate. reflexivity.
Qed.

Lemma generateBatchEmbeddings_all_failed_witness :
  generateBatchEmbeddings (constructor (Some (str "key"))) deadProvider
    [str "a"; str "b"] 0 []
  = (Ok (fallbackRecords [str "a"; str "b"]),
     [] ++ retryTrace (constructor (Some (str "key"))) [str "a"; str "b"] 0
             (maxRetries (constructor (Some (str "key")))))
  /\ length (fallbackRecords [str "a"; str "b"]) = length [str "a"; str "b"]
  /\ (forall i text, [str "a"; str "b"] !! i = Some text ->
        fallbackRecords [str "a"; str "b"] !! i
        = Some {| embedding := Some (replicate 768 0%float);
                  index := Z.of_nat i;
                  failed := true |})
  /\ length (replicate 768 0%float) = 768
  /\ Forall (fun x => x = 0%float) (replicate 768 0%float).
Proof.
  apply (generateBatchEmbeddings_all_failed
           (constructor (Some (str "key"))) deadProvider [str "a"; str "b"] []).
  intros n. exists AxiosError. reflexivity.
Defined.

(** *** All batches *)

Section BatchesSpec.
Variable this : EmbeddingsService.
Variable provider : nat -> list jsstring -> response.
Hypothesis Haligned : aligned provider.

Lemma batchLoop_unfold texts i allEmbeddings tr :
  batchLoop this provider texts i allEmbeddings tr
  = if lt_dec i (length texts) then
      if Nat.eq_dec (batchSize this) 0 then None
      else match processBatch this provider texts i allEmbeddings tr with
           | (Ok all', tr') =>
               batchLoop this provider texts (i + batchSize this) all' tr'
           | (Throw e, tr') => Some (Throw e, tr')
           end
    else Some (Ok allEmbeddings, tr).
Proof using Type.
  rewrite batchLoop_equation_1.
  destruct (lt_dec i (length texts)); simpl; [|reflexivity].
  destruct (Nat.eq_dec (batchSize this) 0); simpl; [reflexivity|].
  destruct (processBatch this provider texts i allEmbeddings tr) as [[a|e] tr'];
    reflexivity.
Qed.

Lemma readResponse_outcome n batch records :
  readResponse (provider n batch) = Ok records -> batchOutcome batch records.
Proof using Haligned.
  unfold readResponse. destruct (provider n batch) as [| |items] eqn:Hp;
    try discriminate.
  pose proof (Haligned _ _ _ Hp) as Hlen. intros Hread.
  right. exists items. split; [exact Hlen|].
  destruct items as [|first rest]; [injection Hread as <-; reflexivity|].
  destruct (item_embedding first); congruence.
Qed.

(** One round never raises: it appends the outcome of its batch. *)
Lemma processBatch_run texts i allEmbeddings tr :
  exists records tr',
    processBatch this provider texts i allEmbeddings tr
    = (Ok (allEmbeddings ++ records), tr')
    /\ batchOutcome (slice texts (Z.of_nat i) (Z.of_nat (i + batchSize this)))
         records.
Proof using Haligned.
  unfold processBatch.
  set (batch := slice texts (Z.of_nat i) (Z.of_nat (i + batchSize this))).
  destruct (generateBatchEmbeddings_run this provider batch (maxRetries this)
              0 tr ltac:(lia)) as (k & records & _ & Hrun & _ & Hlast).
  assert (Hout : batchOutcome batch records).
  { destruct Hlast as [Hok|(_ & _ & ->)].
    - eapply readResponse_outcome, Hok.
    - left. reflexivity. }
  unfold try_catch, bind. rewrite Hrun.
  destruct (decide (i + batchSize this < length texts)); simpl; eauto.
Qed.

Lemma batchOutcome_length batch records :
  batchOutcome batch records -> length records = length batch.
Proof using Type.
  intros [->|(items & Hlen & ->)].
  - apply length_imap.
  - rewrite length_fmap. exact Hlen.
Qed.

Hypothesis Hsize : 0 < batchSize this.

Lemma batchLoop_run texts n : forall i allEmbeddings tr,
  length texts - i <= n ->
  exists rest tr',
    batchLoop this provider texts i allEmbeddings tr
    = Some (Ok (allEmbeddings ++ rest), tr')
    /\ batchwise (batchSize this) (drop i texts) rest
    /\ length rest = length texts - i.
Proof using Hsize Haligned.
  induction n as [|n IH]; intros i allEmbeddings tr Hn;
    rewrite batchLoop_unfold; destruct (lt_dec i (length texts)) as [Hlt|Hge];
    try lia.
  1, 3: exists [], tr; rewrite app_nil_r, drop_ge by lia;
        repeat split; [constructor | simpl; lia].
  destruct (Nat.eq_dec (batchSize this) 0) as [H0|_]; [lia|].
  destruct (processBatch_run texts i allEmbeddings tr)
    as (records & tr1 & -> & Hout).
  destruct (IH (i + batchSize this) (allEmbeddings ++ records) tr1 ltac:(lia))
    as (rest & tr' & -> & Hrest & Hlen).
  rewrite Nat2Z.inj_add, slice_window in Hout by lia.
  rewrite !Nat2Z.id in Hout.
  exists (records ++ rest), tr'. rewrite app_assoc. repeat split.
  - constructor.
    + intros Hnil. apply (f_equal length) in Hnil.
      rewrite length_drop in Hnil. simpl in Hnil. lia.
    + exact Hout.
    + rewrite drop_drop. exact Hrest.
  - rewrite length_app, Hlen, (batchOutcome_length _ _ Hout).
    rewrite length_take, length_drop. lia.
Qed.
End BatchesSpec.

Section Runs.
Variable this : EmbeddingsService.
Variable provider : nat -> list jsstring -> response.

(** One round of the batch loop, for any provider: [k + 1 <= maxRetries + 1]
    requests for the batch, the delay of 500 ms when another batch
    follows, and never an error. *)
Lemma processBatch_trace texts i allEmbeddings tr :
  let batch := slice texts (Z.of_nat i) (Z.of_nat (i + batchSize this)) in
  exists k records,
    k <= maxRetries this
    /\ processBatch this provider texts i allEmbeddings tr
       = (Ok (allEmbeddings ++ records),
          (tr ++ retryTrace this batch 0 k)
          ++ (if decide (i + batchSize this < length texts)
              then [Delay 500] else []))
    /\ (forall a, a < k -> failedAttempt (provider (calls tr + a) batch))
    /\ (readResponse (provider (calls tr + k) batch) = Ok records
        \/ (k = maxRetries this
            /\ failedAttempt (provider (calls tr + k) batch)
            /\ records = fallbackRecords batch)).
Proof.
  intros batch. unfold processBatch. fold batch.
  destruct (generateBatchEmbeddings_run this provider batch (maxRetries this)
              0 tr ltac:(lia)) as (k & records & Hk & Hrun & Hfail & Hlast).
  exists k, records. conjuncts.
  - lia.
  - unfold try_catch, bind. rewrite Hrun.
    destruct (decide (i + batchSize this < length texts)); simpl.
    + reflexivity.
    + rewrite app_nil_r. reflexivity.
  - exact Hfail.
  - destruct Hlast as [Hok|(Hceil & Hf & Hrec)]; [left; exact Hok|].
    right. conjuncts; [lia | exact Hf | exact Hrec].
Qed.

Lemma calls_retryTrace_app tr batch k d :
  calls ((tr ++ retryTrace this batch 0 k) ++ d)
  = calls tr + S k + calls d.
Proof. rewrite !calls_app, calls_retryTrace. reflexivity. Qed.

End Runs.

Section RunsSpec.
Variable this : EmbeddingsService.
Variable provider : nat -> list jsstring -> response.
Hypothesis Hsize : 0 < batchSize this.

(** The loop from index [i] on, for any provider: it returns, and what it
    appends and does is a run over the texts that are left. *)
Lemma batchLoop_runs texts n : forall i allEmbeddings tr,
  length texts - i <= n ->
  exists records events,
    batchLoop this provider texts i allEmbeddings tr
    = Some (Ok (allEmbeddings ++ records), tr ++ events)
    /\ EmbeddingsRuns.batchRuns this provider (calls tr) (drop i texts)
         records events.
Proof using Hsize.
  induction n as [|n IH]; intros i allEmbeddings tr Hn;
    rewrite batchLoop_unfold; destruct (lt_dec i (length texts)) as [Hlt|Hge];
    try lia.
  1, 3: exists [], []; rewrite !app_nil_r, drop_ge by lia;
        split; [reflexivity | constructor].
  destruct (Nat.eq_dec (batchSize this) 0) as [H0|_]; [lia|].
  destruct (processBatch_trace this provider texts i allEmbeddings tr)
    as (k & records & Hk & -> & Hfail & Hlast).
  rewrite Nat2Z.inj_add, slice_window in Hfail, Hlast |- * by lia.
  rewrite !Nat2Z.id in Hfail, Hlast |- *.
  set (batch := take (batchSize this) (drop i texts)) in *.
  set (pause := if decide (i + batchSize this < length texts)
                then [Delay 500] else []).
  destruct (IH (i + batchSize this) (allEmbeddings ++ records)
              ((tr ++ retryTrace this batch 0 k) ++ pause) ltac:(lia))
    as (rest & events & -> & Hrest).
  exists (records ++ rest), (retryTrace this batch 0 k ++ pause ++ events).
  split; [rewrite !app_assoc; reflexivity|].
  assert (Hcalls : calls ((tr ++ retryTrace this batch 0 k) ++ pause)
                   = calls tr + S k).
  { rewrite calls_retryTrace_app. unfold pause.
    destruct (decide _); simpl; lia. }
  rewrite Hcalls in Hrest.
  assert (Hpause : pause = if decide (batchSize this < length (drop i texts))
                           then [Delay 500] else []).
  { unfold pause. rewrite length_drop.
    destruct (decide (i + batchSize this < length texts)),
             (decide (batchSize this < length texts - i));
      try reflexivity; lia. }
  rewrite Hpause. constructor.
  - intros Hnil. apply (f_equal length) in Hnil.
    rewrite length_drop in Hnil. simpl in Hnil. lia.
  - exact Hk.
  - exact Hfail.
  - exact Hlast.
  - rewrite drop_drop. exact Hrest.
Qed.
End RunsSpec.

(** A run is determined by the provider: the texts and the number of the
    first request leave one list of records and one trace. *)
Lemma batchRuns_unique this provider n texts records events :
  EmbeddingsRuns.batchRuns this provider n texts records events ->
  forall records' events',
    EmbeddingsRuns.batchRuns this provider n texts records' events' ->
    records' = records /\ events' = events.
Proof.
  induction 1 as [n|n texts k records rest events Hne Hk Hfail Hlast _ IH];
    intros records' events' Hruns'.
  - inversion Hruns'; subst; [split; reflexivity | congruence].
  - inversion Hruns' as [|n' texts' k' records1 rest' events1 _ Hk' Hfail' Hlast' Hrest'];
      subst; [congruence|].
    assert (Hkk : k' = k).
    { destruct (lt_eq_lt_dec k k') as [[Hlt|Heq]|Hgt]; [|auto|].
      - destruct (Hfail' k Hlt) as [e He].
        destruct Hlast as [Hok|(Hmax & _)]; [congruence | lia].
      - destruct (Hfail k' Hgt) as [e He].
        destruct Hlast' as [Hok|(Hmax & _)]; [congruence | lia]. }
    subst k'.
    assert (Hrec : records1 = records).
    { destruct Hlast as [Hok|(_ & [e He] & ->)],
               Hlast' as [Hok'|(_ & [e' He'] & ->)]; congruence. }
    subst records1.
    destruct (IH _ _ Hrest') as [-> ->]. split; reflexivity.
Qed.

(** C1: with an API key, a positive batch size and a provider that
    answers each request with one item per input, [generateEmbeddings]
    returns, with exactly one record per input text.  The records are
    ordered by batch position: they are, batch after batch in the order of
    the texts, the records of what the provider answered to the last
    request made for that very batch, or the fallback records of the batch
    when all its [maxRetries + 1] requests failed; the requests made are
    those of these batches, in that order; and the provider leaves no
    other list of records or trace for such a run. *)
Theorem generateEmbeddings_one_record_per_text
    (this : EmbeddingsService) (provider : nat -> list jsstring -> response)
    (texts : list jsstring) (tr : list event) :
  noApiKey this = false ->
  0 < batchSize this ->
  aligned provider ->
  exists records events,
    generateEmbeddings this provider (TextArray texts) tr
    = Some (Ok records, tr ++ events)
    /\ length records = length texts
    /\ batchwise (batchSize this) texts records
    /\ EmbeddingsRuns.batchRuns this provider (calls tr) texts records events
    /\ (forall records' events',
          EmbeddingsRuns.batchRuns this provider (calls tr) texts
            records' events' ->
          records' = records /\ events' = events).
Proof.
  intros Hkey Hsize Haligned. unfold generateEmbeddings. rewrite Hkey.
  destruct (batchLoop_run this provider Haligned Hsize texts (length texts)
              0 [] tr ltac:(lia)) as (rest & tr' & Hrun & Hbatches & Hlen).
  destruct (batchLoop_runs this provider Hsize texts (length texts)
              0 [] tr ltac:(lia)) as (records & events & Hruns & Hordered).
  rewrite Hrun in Hruns. injection Hruns as -> ->.
  exists records, events. conjuncts.
  - exact Hrun.
  - lia.
  - exact Hbatches.
  - exact Hordered.
  - apply (batchRuns_unique _ _ _ _ _ _ Hordered).
Qed.

Lemma flakyProvider_aligned failures : aligned (flakyProvider failures).
Proof.
  intros n input items. unfold flakyProvider.
  destruct (n <? failures); [discriminate|].
  intros [= <-]. apply length_imap.
Qed.

Lemma generateEmbeddings_one_record_per_text_witness :
  exists records events,
    generateEmbeddings (constructor (Some (str "key"))) (flakyProvider 4)
      (TextArray (replicate 21 (str "text"))) []
    = Some (Ok records, [] ++ events)
    /\ length records = length (replicate 21 (str "text"))
    /\ batchwise (batchSize (constructor (Some (str "key"))))
         (replicate 21 (str "text")) records
    /\ EmbeddingsRuns.batchRuns (constructor (Some (str "key")))
         (flakyProvider 4) (calls []) (replicate 21 (str "text"))
         records events
    /\ (forall records' events',
          EmbeddingsRuns.batchRuns (constructor (Some (str "key")))
            (flakyProvider 4) (calls []) (replicate 21 (str "text"))
            records' events' ->
          records' = records /\ events' = events).
Proof.
  apply (generateEmbeddings_one_record_per_text
           (constructor (Some (str "key"))) (flakyProvider 4)
           (replicate 21 (str "text")) []).
  - reflexivity.
  - simpl. lia.
  - apply flakyProvider_aligned.
Defined.

(** A run with both outcomes: the first batch of 20 exhausts its retries
    and is replaced by fallback records, the second batch succeeds. *)
Example mixed_run :
  runSummary (generateEmbeddings (constructor (Some (str "key")))
                (flakyProvider 4) (TextArray (replicate 21 (str "text"))) [])
  = Some (replicate 20 true ++ [false], 5).
Proof. vm_compute. reflexivity. Qed.

(** Scenario 3 of the specification: 25 texts, batches of 20, a provider
    that fails every call. *)
Example scenario_3 :
  match generateEmbeddings (constructor (Some (str "key"))) deadProvider
          (TextArray (replicate 25 (str "text"))) [] with
  | Some (Ok records, _) =>
      length records = 25
      /\ Forall (fun r => embedding r = Some (replicate 768 0%float)
                          /\ failed r = true) records
  | _ => False
  end.
Proof.
  vm_compute. split; [reflexivity|]. repeat constructor.
Qed.

(** C9: without an API key (undefined or empty), [generateEmbeddings]
    returns the empty list at once: no error, and the trace is unchanged,
    so no request was made. *)
Theorem generateEmbeddings_without_key
    (this : EmbeddingsService) (provider : nat -> list jsstring -> response)
    (texts : textsArg) (tr : list event) :
  noApiKey this = true ->
  generateEmbeddings this provider texts tr = Some (Ok [], tr).
Proof.
  intros Hkey. unfold generateEmbeddings. rewrite Hkey. reflexivity.
Qed.

Lemma generateEmbeddings_without_key_witness :
  generateEmbeddings (constructor None) (flakyProvider 0)
    (TextArray [str "a"; str "b"]) []
  = Some (Ok [], []).
Proof.
  apply (generateEmbeddings_without_key (constructor None) (flakyProvider 0)
           (TextArray [str "a"; str "b"]) []).
  reflexivity.
Defined.

(** *** Cosine similarity *)

Lemma float_zero_square x :
  x = 0%float \/ x = (-0)%float -> (0 + x * x)%float = 0%float.
Proof. intros [->| ->]; reflexivity. Qed.

Lemma cosineLoop_zero_left vecA vecB idxs :
  zeroVector vecA -> Forall (fun i => i < length vecA) idxs ->
  forall d nB, exists d' nB',
    fold_left (cosineStep vecA vecB) idxs (d, 0%float, nB) = (d', 0%float, nB').
Proof.
  intros HA Hidx. induction Hidx as [|i idxs Hi _ IH]; intros d nB; simpl.
  - eauto.
  - rewrite float_zero_square; [apply IH|].
    apply (proj1 (Forall_nth _ nan vecA) HA). exact Hi.
Qed.

Lemma cosineLoop_zero_right vecA vecB idxs :
  zeroVector vecB -> Forall (fun i => i < length vecB) idxs ->
  forall d nA, exists d' nA',
    fold_left (cosineStep vecA vecB) idxs (d, nA, 0%float) = (d', nA', 0%float).
Proof.
  intros HB Hidx. induction Hidx as [|i idxs Hi _ IH]; intros d nA; simpl.
  - eauto.
  - rewrite float_zero_square; [apply IH|].
    apply (proj1 (Forall_nth _ nan vecB) HB). exact Hi.
Qed.

(** C10: [cosineSimilarity] throws exactly when the lengths differ; on
    vectors of equal length it returns a number, and that number is 0 as
    soon as one of the vectors is a zero vector (every component [+0] or
    [-0]), whatever the other one holds, and more generally as soon as one
    of the two norms the loop computes is zero: no division takes place. *)
Theorem cosineSimilarity_total (vecA vecB : vector) :
  (cosineSimilarity vecA vecB = Throw LengthMismatch
     <-> length vecA <> length vecB)
  /\ ((exists e, cosineSimilarity vecA vecB = Throw e)
        <-> length vecA <> length vecB)
  /\ (length vecA = length vecB ->
        exists r, cosineSimilarity vecA vecB = Ok r)
  /\ (length vecA = length vecB ->
        zeroVector vecA \/ zeroVector vecB ->
        cosineSimilarity vecA vecB = Ok 0%float)
  /\ (length vecA = length vecB ->
        forall dotProduct normA normB,
          cosineLoop vecA vecB = (dotProduct, normA, normB) ->
          (PrimFloat.sqrt normA =? 0)%float = true
          \/ (PrimFloat.sqrt normB =? 0)%float = true ->
          cosineSimilarity vecA vecB = Ok 0%float).
Proof.
  assert (Hok : length vecA = length vecB ->
                exists r, cosineSimilarity vecA vecB = Ok r).
  { intros Hlen. unfold cosineSimilarity.
    destruct (decide (length vecA <> length vecB)); [contradiction|].
    destruct (cosineLoop vecA vecB) as [[d nA] nB].
    destruct (_ || _); eauto. }
  assert (Hthrow : length vecA <> length vecB ->
                   cosineSimilarity vecA vecB = Throw LengthMismatch).
  { intros Hlen. unfold cosineSimilarity.
    destruct (decide (length vecA <> length vecB)); [reflexivity|contradiction]. }
  conjuncts.
  - split; [|exact Hthrow].
    intros Hc Hlen. destruct (Hok Hlen) as [r Hr]. congruence.
  - split; [|eauto].
    intros [e Hc] Hlen. destruct (Hok Hlen) as [r Hr]. congruence.
  - exact Hok.
  - intros Hlen Hzero. unfold cosineSimilarity.
    destruct (decide (length vecA <> length vecB)); [contradiction|].
    unfold cosineLoop.
    assert (Hidx : Forall (fun i => i < length vecA) (seq 0 (length vecA)))
      by (apply Forall_seq; intros; lia).
    destruct Hzero as [HA|HB].
    + destruct (cosineLoop_zero_left vecA vecB _ HA Hidx 0%float 0%float)
        as (d & nB & ->). reflexivity.
    + assert (Hidx' : Forall (fun i => i < length vecB) (seq 0 (length vecA)))
        by (apply Forall_seq; intros; lia).
      destruct (cosineLoop_zero_right vecA vecB _ HB Hidx' 0%float 0%float)
        as (d & nA & ->).
      change (PrimFloat.sqrt 0 =? 0)%float with true.
      rewrite orb_true_r. reflexivity.
  - intros Hlen dotProduct normA normB Hloop Hnorm. unfold cosineSimilarity.
    destruct (decide (length vecA <> length vecB)); [contradiction|].
    rewrite Hloop. destruct Hnorm as [-> | ->]; [reflexivity|].
    rewrite orb_true_r. reflexivity.
Qed.

Example cosine_zero_against_nan :
  cosineSimilarity [0%float; (-0)%float] [nan; infinity] = Ok 0%float.
Proof. vm_compute. reflexivity. Qed.

Example flaky_run :
  generateEmbeddings (constructor (Some (str "key"))) (flakyProvider 2)
    (TextArray [str "a"; str "b"]) []
  = Some (Ok [ {| embedding := Some [1%float; 0%float]; index := 0; failed := false |};
               {| embedding := Some [1%float; 0%float]; index := 1; failed := false |} ],
          [Post [str "a"; str "b"]; Delay 1000;
           Post [str "a"; str "b"]; Delay 2000;
           Post [str "a"; str "b"]]).
Proof. vm_compute. reflexivity. Qed.

Example dead_run_trace :
  snd <$> generateEmbeddings (constructor (Some (str "key"))) deadProvider
    (TextArray [str "a"]) []
  = Some [Post [str "a"]; Delay 1000; Post [str "a"]; Delay 2000;
          Post [str "a"]; Delay 4000; Post [str "a"]].
Proof. vm_compute. reflexivity. Qed.

Example cosine_ex1 :
  cosineSimilarity [1%float; 0%float] [2%float; 0%float] = Ok 1%float.
Proof. vm_compute. reflexivity. Qed.

Example cosine_ex2 : cosineSimilarity [1%float] [] = Throw LengthMismatch.
Proof. vm_compute. reflexivity. Qed.

End EmbeddingsSpec.

Module SessionsSpec.
Import Sessions.

Lemma keys_disjoint a b : sessionKey a <> messagesKey b.
Proof. intros Heq. vm_compute in Heq. discriminate. Qed.






Lemma bind_ok {St A B} (m : M St A) (k : A -> M St B) st a st' :
  m st = (Ok a, st') -> bind m k st = k a st'.
Proof. intros Hm. unfold bind. rewrite Hm. reflexivity. Qed.

Section Redis.
Variable now : Z.
Variable ttl : Z.
Hypothesis Httl : (0 < ttl)%Z.

Lemma redisGet_run this db key :
  redis this = Some db ->
  redisGet key now this = (Ok (db !! key ≫= live now), this).
Proof using Type. intros Hdb. unfold redisGet. rewrite Hdb. reflexivity. Qed.

Lemma redisSetex_run this db key v :
  redis this = Some db ->
  redisSetex key ttl v now this
  = (Ok tt, setRedis (<[key := {| entry_value := v;
                                  expires := now + ttl * 1000 |}]> db) this).
Proof using Httl.
  intros Hdb. unfold redisSetex. rewrite Hdb.
  destruct (Z.leb_spec ttl 0); [lia|reflexivity].
Qed.





End Redis.



(** *** Pagination *)

Lemma recentPage_segment (messages : list Message) (lim off : nat) :
  recentPage lim off messages
  = drop (length messages - off - lim) (take (length messages - off) messages).
Proof.
  unfold recentPage.
  rewrite drop_reverse, take_reverse, reverse_involutive, length_take.
  f_equal. lia.
Qed.

Lemma slice_recentPage (messages : list Message) (lim off : Z) :
  (0 <= lim)%Z -> (0 <= off)%Z ->
  let len := Z.of_nat (length messages) in
  slice messages (Z.max 0 (len - lim - off)) (Z.max 0 (len - off))
  = recentPage (Z.to_nat lim) (Z.to_nat off) messages.
Proof.
  intros Hlim Hoff len. rewrite recentPage_segment.
  unfold slice, relIndex. fold len.
  destruct (Z.ltb_spec (Z.max 0 (len - lim - off)) 0); [lia|].
  destruct (Z.ltb_spec (Z.max 0 (len - off)) 0); [lia|].
  rewrite take_drop_commute. f_equal; [lia|]. f_equal. lia.
Qed.

(** C7: for a stored list of [n] messages, [limit >= 0] and
    [offset >= 0], [getMessages] returns the [limit] most recent messages
    that are left once the [offset] most recent are skipped, oldest
    first: [min limit (n - offset)] of them, a contiguous run of the
    stored list; the state is not changed. *)
Theorem getMessages_recent_page
    (this : SessionManager) (sessionId : jsstring) (now : Z)
    (messages : list Message) (lim off : Z) :
  asMessages (lookupKey this (messagesKey sessionId) now) = Some messages ->
  (0 <= lim)%Z -> (0 <= off)%Z ->
  let page := recentPage (Z.to_nat lim) (Z.to_nat off) messages in
  getMessages sessionId {| limit := Some lim; offset := Some off |} now this
  = (Ok page, this)
  /\ length page = Z.to_nat lim `min` (length messages - Z.to_nat off)
  /\ page = drop (length messages - Z.to_nat off - Z.to_nat lim)
               (take (length messages - Z.to_nat off) messages).
Proof.
  intros Hstored Hlim Hoff page. conjuncts.
  - unfold getMessages. rewrite (bind_ok get _ this this this) by reflexivity.
    unfold lookupKey in Hstored. simpl default.
    destruct (redis this) as [db|] eqn:Hdb.
    + rewrite (bind_ok _ _ _ _ _ (redisGet_run now this db _ Hdb)).
      rewrite Hstored. unfold ret. rewrite slice_recentPage by lia. reflexivity.
    + erewrite bind_ok by reflexivity.
      rewrite Hstored. unfold ret. rewrite slice_recentPage by lia. reflexivity.
  - unfold page. rewrite recentPage_segment, length_drop, length_take. lia.
  - apply recentPage_segment.
Qed.

Lemma getMessages_recent_page_witness :
  let page := recentPage (Z.to_nat 2) (Z.to_nat 1) [msg 1; msg 2; msg 3; msg 4] in
  getMessages (str "s") {| limit := Some 2%Z; offset := Some 1%Z |} 9
    (setFallback {[ messagesKey (str "s")
                    := MessageList [msg 1; msg 2; msg 3; msg 4] ]} fresh)
  = (Ok page,
     setFallback {[ messagesKey (str "s")
                    := MessageList [msg 1; msg 2; msg 3; msg 4] ]} fresh)
  /\ length page
     = Z.to_nat 2 `min` (length [msg 1; msg 2; msg 3; msg 4] - Z.to_nat 1)
  /\ page = drop (length [msg 1; msg 2; msg 3; msg 4] - Z.to_nat 1 - Z.to_nat 2)
               (take (length [msg 1; msg 2; msg 3; msg 4] - Z.to_nat 1)
                     [msg 1; msg 2; msg 3; msg 4]).
Proof.
  apply (getMessages_recent_page
           (setFallback {[ messagesKey (str "s")
                           := MessageList [msg 1; msg 2; msg 3; msg 4] ]} fresh)
           (str "s") 9 [msg 1; msg 2; msg 3; msg 4] 2 1).
  - vm_compute. reflexivity.
  - lia.
  - lia.
Defined.

(** *** The sweep of the in-memory backend *)

Lemma replace_sessionKey sessionId :
  replace (str "session:") [] (sessionKey sessionId) = sessionId.
Proof. reflexivity. Qed.

Lemma startsWith_sessionKey sessionId :
  startsWith (str "session:") (sessionKey sessionId) = true.
Proof. reflexivity. Qed.

Lemma deleteExpired_gone keys : forall this k,
  fallbackStorage this !! k = None ->
  fallbackStorage (foldl deleteExpired this keys) !! k = None.
Proof.
  induction keys as [|key keys IH]; intros this k Hk; simpl; [exact Hk|].
  apply IH. simpl. rewrite !lookup_delete_None. auto.
Qed.

Lemma deleteExpired_deletes keys : forall this key,
  key ∈ keys ->
  fallbackStorage (foldl deleteExpired this keys) !! key = None
  /\ fallbackStorage (foldl deleteExpired this keys)
       !! messagesKey (replace (str "session:") [] key) = None.
Proof.
  induction keys as [|key' keys IH]; intros this key Hin; simpl.
  - inversion Hin.
  - apply elem_of_cons in Hin as [->|Hin]; [|apply IH, Hin].
    split; apply deleteExpired_gone; simpl; rewrite !lookup_delete_None; auto.
Qed.

(** The sweep decides on [created] alone: a session record older than the
    time to live is removed with its messages, whenever it was last
    written. *)
Lemma sweep_evicts_by_created this now sessionId s :
  redis this = None ->
  fallbackStorage this !! sessionKey sessionId = Some (SessionData s) ->
  (sessionTTL this * 1000 < now - created s)%Z ->
  fallbackStorage (cleanupTick now this) !! sessionKey sessionId = None
  /\ fallbackStorage (cleanupTick now this) !! messagesKey sessionId = None.
Proof.
  intros Hredis Hstored Hold. unfold cleanupTick. rewrite Hredis.
  unfold sweep.
  rewrite <- (replace_sessionKey sessionId) at 2.
  apply deleteExpired_deletes.
  apply list_elem_of_fmap. exists (sessionKey sessionId, SessionData s).
  split; [reflexivity|].
  apply list_elem_of_In, filter_In. split.
  - apply list_elem_of_In, elem_of_map_to_list, Hstored.
  - unfold isExpired. rewrite startsWith_sessionKey. simpl.
    apply bool_decide_eq_true. exact Hold.
Qed.


(** The same history on the Redis backend: every write sets the time to
    live again, and the session is still there. *)
Example redis_keeps_recently_written_session :
  let this0 := initialize (Some ∅) fresh in
  let this1 := after (createSession (str "s") 0) this0 in
  let this2 := after (addMessage (str "s") (msg 1) 86000000) this1 in
  let this3 := cleanupTick 86400001 this2 in
  lookupKey this3 (messagesKey (str "s")) 86400001
  = Some (MessageList [msg 1]).
Proof. vm_compute. reflexivity. Qed.

(** Scenario 5 of the specification: 105 appends, then the page of 100. *)
Example scenario_5 :
  fst (getMessages (str "s") {| limit := Some 100%Z; offset := Some 0%Z |} 200
         (foldl (fun this n => after (addMessage (str "s") (msg n) n) this)
                fresh (Z.of_nat <$> seq 1 105)))
  = Ok (msg <$> (Z.of_nat <$> seq 6 100)).
Proof. vm_compute. reflexivity. Qed.

Example getMessages_ex :
  fst (getMessages (str "s") {| limit := Some 2%Z; offset := Some 1%Z |} 5
         (foldl (fun this n => after (addMessage (str "s") (msg n) n) this)
                fresh [1; 2; 3; 4; 5]%Z))
  = Ok [msg 3; msg 4].
Proof. vm_compute. reflexivity. Qed.

Example sweep_ex :
  let this1 := after (createSession (str "s") 0) fresh in
  let this2 := after (addMessage (str "s") (msg 1) 86000000) this1 in
  let this3 := cleanupTick 86400001 this2 in
  fallbackStorage this3 = ∅.
Proof. vm_compute. reflexivity. Qed.

End SessionsSpec.

Module SessionsExtra.
Import Sessions SessionsView SessionsSpec.

Lemma sessionKey_inj a b : sessionKey a = sessionKey b -> a = b.
Proof. unfold sessionKey. apply app_inv_head. Qed.

Lemma messagesKey_inj a b : messagesKey a = messagesKey b -> a = b.
Proof. unfold messagesKey. apply app_inv_head. Qed.

(** *** Nothing outside the session's two keys is written *)

Lemma agreeOutside_refl sessionId this : agreeOutside sessionId this this.
Proof. repeat split; auto. Qed.

Lemma agreeOutside_trans sessionId this1 this2 this3 :
  agreeOutside sessionId this1 this2 -> agreeOutside sessionId this2 this3 ->
  agreeOutside sessionId this1 this3.
Proof.
  intros (Httl1 & Hb1 & Hk1) (Httl2 & Hb2 & Hk2). split; [congruence|].
  split; [tauto|]. intros key Hs Hm.
  destruct (Hk1 key Hs Hm) as [Hf1 Hr1], (Hk2 key Hs Hm) as [Hf2 Hr2].
  split; congruence.
Qed.

Lemma frames_ret {A} sessionId (a : A) : frames sessionId (ret a).
Proof. intros this. apply agreeOutside_refl. Qed.

Lemma frames_throw {A} sessionId e : frames sessionId (@throw _ A e).
Proof. intros this. apply agreeOutside_refl. Qed.

Lemma frames_get sessionId : frames sessionId get.
Proof. intros this. apply agreeOutside_refl. Qed.

Lemma frames_bind {A B} sessionId (m : M SessionManager A)
    (k : A -> M SessionManager B) :
  frames sessionId m -> (forall a, frames sessionId (k a)) ->
  frames sessionId (bind m k).
Proof.
  intros Hm Hk this. unfold bind. specialize (Hm this).
  destruct (m this) as [[a|e] this1]; simpl in *; [|exact Hm].
  eapply agreeOutside_trans; [exact Hm | apply Hk].
Qed.

Lemma frames_redisGet sessionId key now : frames sessionId (redisGet key now).
Proof.
  intros this. unfold redisGet. destruct (redis this); apply agreeOutside_refl.
Qed.

Lemma frames_redisSetex sessionId key seconds v now :
  key = sessionKey sessionId \/ key = messagesKey sessionId ->
  frames sessionId (redisSetex key seconds v now).
Proof.
  intros Hkey this. unfold redisSetex.
  destruct (redis this) as [db|] eqn:Hdb; [|apply agreeOutside_refl].
  destruct (seconds <=? 0)%Z; [apply agreeOutside_refl|]. simpl.
  split; [reflexivity|]. split; [rewrite Hdb; split; discriminate|].
  intros k Hs Hm. split; [reflexivity|].
  unfold rawRedis. simpl. rewrite Hdb. simpl.
  apply lookup_insert_ne. destruct Hkey; congruence.
Qed.

Lemma frames_redisDel sessionId key :
  key = sessionKey sessionId \/ key = messagesKey sessionId ->
  frames sessionId (redisDel key).
Proof.
  intros Hkey this. unfold redisDel.
  destruct (redis this) as [db|] eqn:Hdb; [|apply agreeOutside_refl]. simpl.
  split; [reflexivity|]. split; [rewrite Hdb; split; discriminate|].
  intros k Hs Hm. split; [reflexivity|].
  unfold rawRedis. simpl. rewrite Hdb. simpl.
  apply lookup_delete_ne. destruct Hkey; congruence.
Qed.

Lemma frames_fallbackSet sessionId key v :
  key = sessionKey sessionId \/ key = messagesKey sessionId ->
  frames sessionId (fallbackSet key v).
Proof.
  intros Hkey this. unfold fallbackSet. simpl.
  split; [reflexivity|]. split; [reflexivity|].
  intros k Hs Hm. split; [|reflexivity].
  apply lookup_insert_ne. destruct Hkey; congruence.
Qed.

Lemma frames_fallbackDelete sessionId key :
  key = sessionKey sessionId \/ key = messagesKey sessionId ->
  frames sessionId (fallbackDelete key).
Proof.
  intros Hkey this. unfold fallbackDelete. simpl.
  split; [reflexivity|]. split; [reflexivity|].
  intros k Hs Hm. split; [|reflexivity].
  apply lookup_delete_ne. destruct Hkey; congruence.
Qed.

Create HintDb frames.
#[local] Hint Resolve frames_ret frames_throw frames_get frames_redisGet
  frames_redisSetex frames_redisDel frames_fallbackSet frames_fallbackDelete
  : frames.

Ltac frame :=
  repeat first
    [ apply frames_bind; [|intros ?]
    | progress eauto with frames
    | match goal with
      | |- frames _ (match ?x with _ => _ end) => destruct x
      | |- frames _ (let _ := _ in _) => cbv zeta
      end ].

Lemma frames_createSession sessionId now :
  frames sessionId (createSession sessionId now).
Proof. unfold createSession. frame. Qed.

Lemma frames_getSessionInfo sessionId now :
  frames sessionId (getSessionInfo sessionId now).
Proof. unfold getSessionInfo. frame. Qed.

Lemma frames_addMessage sessionId message now :
  frames sessionId (addMessage sessionId message now).
Proof.
  unfold addMessage, addMessageRedis, addMessageFallback. frame.
Qed.

Lemma frames_deleteSession sessionId :
  frames sessionId (deleteSession sessionId).
Proof. unfold deleteSession. frame. Qed.

Lemma frames_getMessages sessionId opts now :
  frames sessionId (getMessages sessionId opts now).
Proof. unfold getMessages. frame. Qed.

Lemma agreeOutside_sameSession sessionId other this this' :
  other <> sessionId -> agreeOutside sessionId this this' ->
  sameSession other this this'.
Proof.
  intros Hne (_ & Hb & Hk) t.
  assert (Hkey : forall key,
            key <> sessionKey sessionId -> key <> messagesKey sessionId ->
            lookupKey this' key t = lookupKey this key t).
  { intros key Hs Hm. destruct (Hk key Hs Hm) as [Hfs Hraw].
    unfold lookupKey. unfold rawRedis in Hraw.
    destruct (redis this') as [db'|] eqn:Hdb', (redis this) as [db|] eqn:Hdb;
      simpl in Hraw.
    - rewrite Hraw. reflexivity.
    - destruct Hb as [_ Hb]. specialize (Hb eq_refl). discriminate.
    - destruct Hb as [Hb _]. specialize (Hb eq_refl). discriminate.
    - exact Hfs. }
  split; apply Hkey.
  - intros Heq%sessionKey_inj. contradiction.
  - apply keys_disjoint.
  - intros Heq. symmetry in Heq. exact (keys_disjoint _ _ Heq).
  - intros Heq%messagesKey_inj. contradiction.
Qed.

(** X1: the methods of a session write under its own two keys only:
    whatever the backend and the outcome (a thrown error included), after
    [createSession], [getSessionInfo], [addMessage], [getMessages] or
    [deleteSession] on [sessionId], every other session reads exactly as
    before, at every instant. *)
Theorem other_sessions_untouched
    (this : SessionManager) (sessionId other : jsstring)
    (message : Message) (opts : options) (now : Z) :
  other <> sessionId ->
  sameSession other this (after (createSession sessionId now) this)
  /\ sameSession other this (after (getSessionInfo sessionId now) this)
  /\ sameSession other this (after (addMessage sessionId message now) this)
  /\ sameSession other this (after (getMessages sessionId opts now) this)
  /\ sameSession other this (after (deleteSession sessionId) this).
Proof.
  intros Hne. unfold after.
  conjuncts; apply (agreeOutside_sameSession sessionId); try exact Hne.
  - apply frames_createSession.
  - apply frames_getSessionInfo.
  - apply frames_addMessage.
  - apply frames_getMessages.
  - apply frames_deleteSession.
Qed.

Lemma other_sessions_untouched_witness :
  let this := after (addMessage (str "b") (msg 1) 3) fresh in
  sameSession (str "b") this (after (createSession (str "a") 7) this)
  /\ sameSession (str "b") this (after (getSessionInfo (str "a") 7) this)
  /\ sameSession (str "b") this (after (addMessage (str "a") (msg 2) 7) this)
  /\ sameSession (str "b") this
       (after (getMessages (str "a") {| limit := None; offset := None |} 7) this)
  /\ sameSession (str "b") this (after (deleteSession (str "a")) this).
Proof.
  intros this.
  apply (other_sessions_untouched this (str "a") (str "b") (msg 2)
           {| limit := None; offset := None |} 7).
  discriminate.
Defined.

(** *** What the calls leave in the store *)

Lemma createSession_fallback this sessionId now :
  redis this = None ->
  createSession sessionId now this
  = (Ok (freshSession sessionId now),
     setFallback (<[messagesKey sessionId := MessageList []]>
                    (<[sessionKey sessionId := freshSession sessionId now]>
                       (fallbackStorage this))) this).
Proof.
  intros Hredis. unfold createSession.
  rewrite (bind_ok get _ this this this) by reflexivity. rewrite Hredis.
  reflexivity.
Qed.

Lemma createSession_redis_state now ttl this db sessionId :
  (0 < ttl)%Z -> redis this = Some db -> sessionTTL this = ttl ->
  createSession sessionId now this
  = (Ok (freshSession sessionId now),
     setRedis (<[messagesKey sessionId :=
                   {| entry_value := MessageList [];
                      expires := now + ttl * 1000 |}]>
               (<[sessionKey sessionId :=
                    {| entry_value := freshSession sessionId now;
                       expires := now + ttl * 1000 |}]> db)) this).
Proof.
  intros Httl Hdb Hthis. unfold createSession.
  rewrite (bind_ok get _ this this this) by reflexivity.
  rewrite Hdb, Hthis.
  erewrite bind_ok; [reflexivity|].
  erewrite bind_ok by (apply (redisSetex_run now ttl Httl), Hdb).
  erewrite (redisSetex_run now ttl Httl) by reflexivity. reflexivity.
Qed.

Lemma getSessionInfo_present this sessionId now v :
  lookupKey this (sessionKey sessionId) now = Some v ->
  getSessionInfo sessionId now this = (Ok v, this).
Proof.
  unfold lookupKey, getSessionInfo. intros Hv.
  rewrite (bind_ok get _ this this this) by reflexivity.
  destruct (redis this) as [db|] eqn:Hdb.
  - rewrite (bind_ok _ _ _ _ _ (redisGet_run now this db _ Hdb)).
    rewrite Hv. reflexivity.
  - erewrite bind_ok by reflexivity. rewrite Hv. reflexivity.
Qed.

Lemma getSessionInfo_absent this sessionId now :
  lookupKey this (sessionKey sessionId) now = None ->
  getSessionInfo sessionId now this = createSession sessionId now this.
Proof.
  unfold lookupKey, getSessionInfo. intros Hv.
  rewrite (bind_ok get _ this this this) by reflexivity.
  destruct (redis this) as [db|] eqn:Hdb.
  - rewrite (bind_ok _ _ _ _ _ (redisGet_run now this db _ Hdb)).
    rewrite Hv. reflexivity.
  - erewrite bind_ok by reflexivity. rewrite Hv. reflexivity.
Qed.

(** The backend can store: there is no Redis client, or the time to live is
    positive, as [SETEX] demands. *)
Lemma backend_cases this :
  redis this = None \/ (0 < sessionTTL this)%Z ->
  redis this = None \/ exists db, redis this = Some db /\ (0 < sessionTTL this)%Z.
Proof.
  intros [Hnone|Httl]; [left; exact Hnone|].
  destruct (redis this) as [db|]; [right; eauto | left; reflexivity].
Qed.

Lemma createSession_state this sessionId now :
  redis this = None \/ (0 < sessionTTL this)%Z ->
  exists this',
    createSession sessionId now this = (Ok (freshSession sessionId now), this')
    /\ (redis this' = None \/ (0 < sessionTTL this')%Z)
    /\ (forall t, t < now + sessionTTL this * 1000 \/ redis this = None ->
          lookupKey this' (sessionKey sessionId) t
          = Some (freshSession sessionId now)
          /\ lookupKey this' (messagesKey sessionId) t = Some (MessageList []))%Z.
Proof.
  intros Hback. destruct (backend_cases this Hback) as [Hnone|(db & Hdb & Httl)].
  - eexists. split; [apply createSession_fallback, Hnone|].
    split; [left; exact Hnone|]. intros t _. unfold lookupKey. simpl.
    rewrite Hnone. split.
    + rewrite lookup_insert_ne by (symmetry; apply keys_disjoint).
      apply lookup_insert_eq.
    + apply lookup_insert_eq.
  - eexists.
    split; [apply (createSession_redis_state now (sessionTTL this) this db); auto|].
    split; [right; exact Httl|]. intros t [Ht|Hnone]; [|congruence].
    unfold lookupKey, live. simpl. split.
    + rewrite lookup_insert_ne by (symmetry; apply keys_disjoint).
      rewrite lookup_insert_eq. simpl.
      destruct (Z.ltb_spec t (now + sessionTTL this * 1000)); [reflexivity|lia].
    + rewrite lookup_insert_eq. simpl.
      destruct (Z.ltb_spec t (now + sessionTTL this * 1000)); [reflexivity|lia].
Qed.

Lemma slice_nil {A} (s e : Z) : slice (@nil A) s e = [].
Proof. unfold slice. rewrite drop_nil, take_nil. reflexivity. Qed.

Lemma getMessages_stored this sessionId opts now messages :
  asMessages (lookupKey this (messagesKey sessionId) now) = Some messages ->
  getMessages sessionId opts now this
  = (Ok (slice messages
           (Z.max 0 (Z.of_nat (length messages) - default 50%Z (limit opts)
                     - default 0%Z (offset opts)))
           (Z.max 0 (Z.of_nat (length messages) - default 0%Z (offset opts)))),
     this).
Proof.
  intros Hstored. unfold getMessages.
  rewrite (bind_ok get _ this this this) by reflexivity.
  unfold lookupKey in Hstored.
  destruct (redis this) as [db|] eqn:Hdb.
  - rewrite (bind_ok _ _ _ _ _ (redisGet_run now this db _ Hdb)).
    rewrite Hstored. reflexivity.
  - erewrite bind_ok by reflexivity. rewrite Hstored. reflexivity.
Qed.

(** X2: [createSession] starts the session over, whatever was stored: it
    returns the fresh record (created and last active now, no message),
    after which [getSessionInfo] reads that record back without writing and
    [getMessages] returns the empty list for every limit and offset. *)
Theorem createSession_starts_over
    (this : SessionManager) (sessionId : jsstring) (opts : options) (now : Z) :
  redis this = None \/ (0 < sessionTTL this)%Z ->
  exists this',
    createSession sessionId now this = (Ok (freshSession sessionId now), this')
    /\ getSessionInfo sessionId now this'
       = (Ok (freshSession sessionId now), this')
    /\ getMessages sessionId opts now this' = (Ok [], this').
Proof.
  intros Hback.
  destruct (createSession_state this sessionId now Hback)
    as (this' & Hrun & _ & Hread).
  assert (Hnow : (now < now + sessionTTL this * 1000 \/ redis this = None)%Z).
  { destruct Hback as [Hnone|Httl]; [right; exact Hnone | left; lia]. }
  destruct (Hread now Hnow) as [Hs Hm].
  exists this'. conjuncts.
  - exact Hrun.
  - apply getSessionInfo_present, Hs.
  - rewrite (getMessages_stored this' sessionId opts now []) by (rewrite Hm; reflexivity).
    rewrite slice_nil. reflexivity.
Qed.

Lemma createSession_starts_over_witness :
  exists this',
    createSession (str "s") 7
      (after (addMessage (str "s") (msg 1) 3) fresh)
    = (Ok (freshSession (str "s") 7), this')
    /\ getSessionInfo (str "s") 7 this' = (Ok (freshSession (str "s") 7), this')
    /\ getMessages (str "s") {| limit := None; offset := None |} 7 this'
       = (Ok [], this').
Proof.
  apply (createSession_starts_over
           (after (addMessage (str "s") (msg 1) 3) fresh) (str "s")
           {| limit := None; offset := None |} 7).
  left. reflexivity.
Defined.

Lemma deleteSession_state this sessionId :
  exists this',
    deleteSession sessionId this = (Ok tt, this')
    /\ sessionTTL this' = sessionTTL this
    /\ (redis this' = None <-> redis this = None)
    /\ (forall t, lookupKey this' (sessionKey sessionId) t = None
                  /\ lookupKey this' (messagesKey sessionId) t = None).
Proof.
  unfold deleteSession. rewrite (bind_ok get _ this this this) by reflexivity.
  destruct (redis this) as [db|] eqn:Hdb.
  - eexists. split.
    { unfold bind, redisDel. rewrite Hdb. simpl. reflexivity. }
    conjuncts; [reflexivity | simpl; split; discriminate |].
    intros t. unfold lookupKey. simpl. split.
    + rewrite lookup_delete_ne by (symmetry; apply keys_disjoint).
      rewrite lookup_delete_eq. reflexivity.
    + rewrite lookup_delete_eq. reflexivity.
  - eexists. split; [reflexivity|]. simpl. rewrite Hdb.
    conjuncts; [reflexivity | tauto |].
    intros t. unfold lookupKey. simpl. rewrite Hdb. split.
    + rewrite lookup_delete_ne by (symmetry; apply keys_disjoint).
      apply lookup_delete_eq.
    + apply lookup_delete_eq.
Qed.

(** X3: [deleteSession] removes the record and the messages (nothing is
    read under either key afterwards, at any instant, and [getMessages]
    gives the empty list); a later [getSessionInfo] does not fail: it
    creates and returns a brand-new session, with no message. *)
Theorem deleted_session_restarts
    (this : SessionManager) (sessionId : jsstring) (opts : options) (now : Z) :
  redis this = None \/ (0 < sessionTTL this)%Z ->
  exists this1 this2,
    deleteSession sessionId this = (Ok tt, this1)
    /\ (forall t, lookupKey this1 (sessionKey sessionId) t = None
                  /\ lookupKey this1 (messagesKey sessionId) t = None)
    /\ getMessages sessionId opts now this1 = (Ok [], this1)
    /\ getSessionInfo sessionId now this1
       = (Ok (freshSession sessionId now), this2)
    /\ getMessages sessionId opts now this2 = (Ok [], this2).
Proof.
  intros Hback.
  destruct (deleteSession_state this sessionId)
    as (this1 & Hdel & Httl & Hkind & Hgone).
  assert (Hback1 : redis this1 = None \/ (0 < sessionTTL this1)%Z).
  { destruct Hback as [Hnone|Hpos]; [left; tauto | right; lia]. }
  destruct (createSession_state this1 sessionId now Hback1)
    as (this2 & Hcreate & _ & Hread).
  assert (Hnow : (now < now + sessionTTL this1 * 1000 \/ redis this1 = None)%Z).
  { destruct Hback1 as [Hnone|Hpos]; [right; exact Hnone | left; lia]. }
  destruct (Hread now Hnow) as [_ Hm].
  exists this1, this2. conjuncts.
  - exact Hdel.
  - exact Hgone.
  - rewrite (getMessages_stored this1 sessionId opts now [])
      by (rewrite (proj2 (Hgone now)); reflexivity).
    rewrite slice_nil. reflexivity.
  - rewrite getSessionInfo_absent by apply Hgone. exact Hcreate.
  - rewrite (getMessages_stored this2 sessionId opts now [])
      by (rewrite Hm; reflexivity).
    rewrite slice_nil. reflexivity.
Qed.

Lemma deleted_session_restarts_witness :
  exists this1 this2,
    deleteSession (str "s") (after (addMessage (str "s") (msg 1) 3) fresh)
    = (Ok tt, this1)
    /\ (forall t, lookupKey this1 (sessionKey (str "s")) t = None
                  /\ lookupKey this1 (messagesKey (str "s")) t = None)
    /\ getMessages (str "s") {| limit := None; offset := None |} 9 this1
       = (Ok [], this1)
    /\ getSessionInfo (str "s") 9 this1 = (Ok (freshSession (str "s") 9), this2)
    /\ getMessages (str "s") {| limit := None; offset := None |} 9 this2
       = (Ok [], this2).
Proof.
  apply (deleted_session_restarts
           (after (addMessage (str "s") (msg 1) 3) fresh) (str "s")
           {| limit := None; offset := None |} 9).
  left. reflexivity.
Defined.

(** *** Appending *)










(** *** Appends in a row *)






(** *** Pages for any limit and offset *)

(** X7: for every integer limit and offset, negative ones included,
    [getMessages] on a stored list returns without writing, and the page is
    a run of consecutive stored messages in stored order, at most [limit]
    of them (none when the limit is negative or zero). *)
Theorem getMessages_any_page
    (this : SessionManager) (sessionId : jsstring) (now : Z)
    (messages : list Message) (lim off : Z) :
  asMessages (lookupKey this (messagesKey sessionId) now) = Some messages ->
  exists page,
    getMessages sessionId {| limit := Some lim; offset := Some off |} now this
    = (Ok page, this)
    /\ (exists before after_, messages = before ++ page ++ after_)
    /\ (Z.of_nat (length page) <= Z.max 0 lim)%Z.
Proof.
  intros Hstored. eexists. split; [apply getMessages_stored, Hstored|].
  simpl default. set (len := Z.of_nat (length messages)). split.
  - unfold slice. eexists (take _ messages), (drop _ (drop _ messages)).
    rewrite take_drop, take_drop. reflexivity.
  - etransitivity; [apply Nat2Z.inj_le; reflexivity|].
    unfold slice, relIndex. rewrite length_take, length_drop. fold len.
    destruct (Z.ltb_spec (Z.max 0 (len - lim - off)) 0); [lia|].
    destruct (Z.ltb_spec (Z.max 0 (len - off)) 0); lia.
Qed.

Lemma getMessages_any_page_witness :
  exists page,
    getMessages (str "s") {| limit := Some 5%Z; offset := Some (-2)%Z |} 9
      (after (addMessage (str "s") (msg 1) 3) fresh)
    = (Ok page, after (addMessage (str "s") (msg 1) 3) fresh)
    /\ (exists before after_, [msg 1] = before ++ page ++ after_)
    /\ (Z.of_nat (length page) <= Z.max 0 5)%Z.
Proof.
  apply (getMessages_any_page (after (addMessage (str "s") (msg 1) 3) fresh)
           (str "s") 9 [msg 1] 5 (-2)).
  reflexivity.
Defined.

(** *** The sweep, key by key *)

Lemma startsWith_prefix (p s : jsstring) :
  startsWith p s = true -> s = p ++ drop (length p) s.
Proof.
  revert s. induction p as [|a p IH]; intros s Hs; [reflexivity|].
  destruct s as [|b s]; [discriminate|]. simpl in Hs.
  apply andb_prop in Hs as [Hab Hs]. apply N.eqb_eq in Hab. subst b.
  simpl. f_equal. apply IH, Hs.
Qed.

Lemma replace_prefix (p r s : jsstring) :
  startsWith p s = true -> replace p r s = r ++ drop (length p) s.
Proof.
  intros Hs. destruct s as [|c s]; simpl; rewrite Hs; reflexivity.
Qed.

Lemma session_key_shape key :
  startsWith (str "session:") key = true ->
  key = sessionKey (replace (str "session:") [] key).
Proof.
  intros Hs. rewrite (replace_prefix _ _ _ Hs). unfold sessionKey.
  rewrite app_nil_l. apply startsWith_prefix, Hs.
Qed.

Lemma deleteExpired_other keys : forall this k,
  k ∉ keys ->
  (forall key, key ∈ keys -> k <> messagesKey (replace (str "session:") [] key)) ->
  fallbackStorage (foldl deleteExpired this keys) !! k = fallbackStorage this !! k.
Proof.
  induction keys as [|key keys IH]; intros this k Hk Hm; [reflexivity|].
  simpl. rewrite not_elem_of_cons in Hk. destruct Hk as [Hne Hk].
  rewrite IH; [|exact Hk|intros key' Hin; apply Hm; right; exact Hin].
  simpl. rewrite !lookup_delete_ne; [reflexivity|congruence|].
  intros Heq. apply (Hm key); [left|symmetry; exact Heq].
Qed.

Lemma expired_keys this now key :
  key ∈ (List.filter (fun '(key, value) => isExpired this now key value)
           (map_to_list (fallbackStorage this))).*1 ->
  startsWith (str "session:") key = true
  /\ expiredAt this now (replace (str "session:") [] key).
Proof.
  intros ([k v] & -> & Hin)%list_elem_of_fmap. simpl.
  apply list_elem_of_In, filter_In in Hin as [Hin Hexp].
  apply list_elem_of_In, elem_of_map_to_list in Hin.
  unfold isExpired in Hexp. apply andb_prop in Hexp as [Hstart Hold].
  split; [exact Hstart|]. destruct v as [s|l]; [|discriminate].
  exists s. rewrite <- (session_key_shape k Hstart). split; [exact Hin|].
  apply bool_decide_eq_true in Hold. exact Hold.
Qed.

(** X8: one sweep of the in-memory backend removes, with its messages,
    exactly each session whose record was created more than the time to
    live before; the record and the messages of every other session are
    left as they are. *)
Theorem sweep_removes_exactly_expired
    (this : SessionManager) (now : Z) (sessionId : jsstring) :
  redis this = None ->
  let this' := cleanupTick now this in
  (expiredAt this now sessionId ->
     fallbackStorage this' !! sessionKey sessionId = None
     /\ fallbackStorage this' !! messagesKey sessionId = None)
  /\ (~ expiredAt this now sessionId ->
       fallbackStorage this' !! sessionKey sessionId
       = fallbackStorage this !! sessionKey sessionId
       /\ fallbackStorage this' !! messagesKey sessionId
          = fallbackStorage this !! messagesKey sessionId).
Proof.
  intros Hredis this'. split.
  - intros (s & Hstored & Hold).
    apply (sweep_evicts_by_created this now sessionId s); assumption.
  - intros Hkept. unfold this', cleanupTick. rewrite Hredis. unfold sweep.
    assert (Hnot : sessionKey sessionId
              ∉ (List.filter (fun '(key, value) => isExpired this now key value)
                   (map_to_list (fallbackStorage this))).*1).
    { intros [_ Hexp]%expired_keys. apply Hkept.
      rewrite replace_sessionKey in Hexp. exact Hexp. }
    split; apply deleteExpired_other.
    + exact Hnot.
    + intros key _. apply keys_disjoint.
    + intros [Hstart _]%expired_keys. discriminate.
    + intros key Hin Heq. apply messagesKey_inj in Heq. subst sessionId.
      apply Hnot. destruct (expired_keys this now key Hin) as [Hstart _].
      rewrite <- (session_key_shape key Hstart). exact Hin.
Qed.

Lemma sweep_removes_exactly_expired_witness :
  let this0 := after (addMessage (str "s") (msg 1) 3) fresh in
  let this' := cleanupTick 1000 this0 in
  (expiredAt this0 1000 (str "s") ->
     fallbackStorage this' !! sessionKey (str "s") = None
     /\ fallbackStorage this' !! messagesKey (str "s") = None)
  /\ (~ expiredAt this0 1000 (str "s") ->
       fallbackStorage this' !! sessionKey (str "s")
       = fallbackStorage this0 !! sessionKey (str "s")
       /\ fallbackStorage this' !! messagesKey (str "s")
          = fallbackStorage this0 !! messagesKey (str "s")).
Proof.
  apply (sweep_removes_exactly_expired
           (after (addMessage (str "s") (msg 1) 3) fresh) 1000 (str "s")).
  reflexivity.
Defined.

End SessionsExtra.

Module EmbeddingsExtra.
Import Embeddings EmbeddingsHealth EmbeddingsSpec.

Lemma ceilDiv_zero b : Ingestion.ceilDiv 0 b = 0.
Proof.
  unfold Ingestion.ceilDiv. destruct b as [|b]; [reflexivity|].
  apply Nat.div_small. lia.
Qed.

Lemma ceilDiv_step a b :
  0 < b -> 0 < a ->
  Ingestion.ceilDiv a b = S (Ingestion.ceilDiv (a - b) b).
Proof.
  intros Hb Ha. unfold Ingestion.ceilDiv.
  destruct (le_lt_dec b a) as [Hle|Hlt].
  - replace (a + b - 1) with ((a - b + b - 1) + 1 * b) by lia.
    rewrite Nat.div_add by lia. lia.
  - replace (a - b) with 0 by lia. simpl.
    rewrite (Nat.div_small (b - 1) b) by lia.
    symmetry. apply (Nat.div_unique _ _ 1 (a - 1)); lia.
Qed.

Section Bounds.
Variable this : EmbeddingsService.
Variable provider : nat -> list jsstring -> response.
Hypothesis Hsize : 0 < batchSize this.

Lemma batchLoop_calls texts n : forall i allEmbeddings tr,
  length texts - i <= n ->
  let batches := Ingestion.ceilDiv (length texts - i) (batchSize this) in
  exists records tr',
    batchLoop this provider texts i allEmbeddings tr = Some (Ok records, tr')
    /\ calls tr + batches <= calls tr'
    /\ calls tr' <= calls tr + (maxRetries this + 1) * batches.
Proof using Hsize.
  induction n as [|n IH]; intros i allEmbeddings tr Hn batches;
    rewrite batchLoop_unfold; destruct (lt_dec i (length texts)) as [Hlt|Hge];
    try lia.
  1, 3: exists allEmbeddings, tr; subst batches;
        replace (length texts - i) with 0 by lia; rewrite ceilDiv_zero;
        split; [reflexivity | lia].
  destruct (Nat.eq_dec (batchSize this) 0) as [H0|_]; [lia|].
  destruct (processBatch_trace this provider texts i allEmbeddings tr)
    as (k & records & Hk & -> & _ & _).
  destruct (IH (i + batchSize this) (allEmbeddings ++ records)
              ((tr ++ retryTrace this
                        (slice texts (Z.of_nat i) (Z.of_nat (i + batchSize this)))
                        0 k)
               ++ (if decide (i + batchSize this < length texts)
                   then [Delay 500] else [])) ltac:(lia))
    as (records' & tr' & -> & Hlow & Hup).
  exists records', tr'. split; [reflexivity|].
  rewrite calls_retryTrace_app in Hlow, Hup.
  assert (Hd : calls (if decide (i + batchSize this < length texts)
                      then [Delay 500] else []) = 0)
    by (destruct (decide _); reflexivity).
  rewrite Hd in Hlow, Hup. subst batches.
  rewrite (ceilDiv_step (length texts - i) (batchSize this)) by lia.
  replace (length texts - i - batchSize this)
    with (length texts - (i + batchSize this)) by lia.
  split; [lia|nia].
Qed.
End Bounds.

(** *** The requests of each batch *)

Lemma posts_app tr1 tr2 :
  EmbeddingsRuns.posts (tr1 ++ tr2)
  = EmbeddingsRuns.posts tr1 ++ EmbeddingsRuns.posts tr2.
Proof.
  induction tr1 as [|[input|ms] tr1 IH]; simpl; [reflexivity| |exact IH].
  rewrite IH. reflexivity.
Qed.

Lemma posts_retryTrace this batch k : forall r,
  EmbeddingsRuns.posts (retryTrace this batch r k) = replicate (S k) batch.
Proof.
  induction k as [|k IH]; intros r; simpl; [reflexivity|].
  rewrite IH. reflexivity.
Qed.

Lemma calls_posts tr : calls tr = length (EmbeddingsRuns.posts tr).
Proof.
  induction tr as [|[input|ms] tr IH]; simpl; [reflexivity| |exact IH].
  rewrite IH. reflexivity.
Qed.

Lemma batchesOf_nil size : batchesOf size [] = [].
Proof. unfold batchesOf. simpl. rewrite ceilDiv_zero. reflexivity. Qed.

Lemma batchesOf_cons size texts :
  0 < size -> texts <> [] ->
  batchesOf size texts = take size texts :: batchesOf size (drop size texts).
Proof.
  intros Hsize Hne. unfold batchesOf.
  assert (Hlen : 0 < length texts) by (destruct texts; [congruence|simpl; lia]).
  rewrite (ceilDiv_step (length texts) size Hsize Hlen), length_drop.
  cbn [seq fmap list_fmap]. rewrite Nat.mul_0_l, drop_0. f_equal.
  rewrite <- fmap_S_seq, <- list_fmap_compose.
  apply list_fmap_ext. intros _ k _. simpl.
  rewrite drop_drop. reflexivity.
Qed.

(** In a run every batch gets between one and [maxRetries + 1] requests,
    all for that batch, and the batches are served in order. *)
Lemma batchRuns_attempts this provider n texts records events :
  0 < batchSize this ->
  EmbeddingsRuns.batchRuns this provider n texts records events ->
  exists attempts,
    length attempts = length (batchesOf (batchSize this) texts)
    /\ Forall (fun a => 1 <= a <= maxRetries this + 1) attempts
    /\ EmbeddingsRuns.posts events
       = concat (zip_with (fun a batch => replicate a batch) attempts
                   (batchesOf (batchSize this) texts)).
Proof.
  intros Hsize Hruns.
  induction Hruns as [n|n texts k records rest events Hne Hk _ _ _ IH].
  - exists []. rewrite batchesOf_nil. conjuncts; [reflexivity|constructor|reflexivity].
  - destruct IH as (attempts & Hlen & Hall & Hposts).
    exists (S k :: attempts). rewrite (batchesOf_cons _ _ Hsize Hne).
    conjuncts.
    + simpl. rewrite Hlen. reflexivity.
    + constructor; [lia | exact Hall].
    + rewrite !posts_app, posts_retryTrace, Hposts.
      destruct (decide (batchSize this < length texts)); reflexivity.
Qed.

(** X9: with an API key and a positive batch size, [generateEmbeddings]
    returns a list of records whatever the provider does (failures,
    malformed or misaligned answers), and it makes at least one and at most
    [maxRetries + 1] requests for each of the [ceil(n / batchSize)]
    batches: the requests it sends are those of the first batch, then
    those of the second, and so on, so that their total lies between the
    number of batches and [maxRetries + 1] times that number. *)
Theorem generateEmbeddings_request_bounds
    (this : EmbeddingsService) (provider : nat -> list jsstring -> response)
    (texts : list jsstring) (tr : list event) :
  noApiKey this = false ->
  0 < batchSize this ->
  let batches := batchesOf (batchSize this) texts in
  exists records events attempts,
    generateEmbeddings this provider (TextArray texts) tr
    = Some (Ok records, tr ++ events)
    /\ length batches = Ingestion.ceilDiv (length texts) (batchSize this)
    /\ length attempts = length batches
    /\ Forall (fun a => 1 <= a <= maxRetries this + 1) attempts
    /\ EmbeddingsRuns.posts events
       = concat (zip_with (fun a batch => replicate a batch) attempts batches)
    /\ calls tr + length batches <= calls (tr ++ events)
    /\ calls (tr ++ events)
       <= calls tr + (maxRetries this + 1) * length batches.
Proof.
  intros Hkey Hsize batches. unfold generateEmbeddings. rewrite Hkey.
  destruct (batchLoop_runs this provider Hsize texts (length texts) 0 [] tr
              ltac:(lia)) as (records & events & Hrun & Hruns).
  destruct (batchLoop_calls this provider Hsize texts (length texts) 0 [] tr
              ltac:(lia)) as (records' & tr' & Hrun' & Hlow & Hup).
  rewrite Hrun in Hrun'. injection Hrun' as _ <-.
  rewrite Nat.sub_0_r in Hlow, Hup. rewrite drop_0 in Hruns.
  destruct (batchRuns_attempts this provider _ _ _ _ Hsize Hruns)
    as (attempts & Hlen & Hall & Hposts).
  assert (Hbatches : length batches
                     = Ingestion.ceilDiv (length texts) (batchSize this)).
  { unfold batches, batchesOf. rewrite length_fmap, length_seq. reflexivity. }
  exists records, events, attempts. rewrite Hbatches.
  conjuncts; try assumption; try reflexivity.
  rewrite Hlen. exact Hbatches.
Qed.

Lemma generateEmbeddings_request_bounds_witness :
  let this := constructor (Some (str "key")) in
  let texts := replicate 21 (str "text") in
  let batches := batchesOf (batchSize this) texts in
  exists records events attempts,
    generateEmbeddings this (flakyProvider 4) (TextArray texts) []
    = Some (Ok records, [] ++ events)
    /\ length batches = Ingestion.ceilDiv (length texts) (batchSize this)
    /\ length attempts = length batches
    /\ Forall (fun a => 1 <= a <= maxRetries this + 1) attempts
    /\ EmbeddingsRuns.posts events
       = concat (zip_with (fun a batch => replicate a batch) attempts batches)
    /\ calls [] + length batches <= calls ([] ++ events)
    /\ calls ([] ++ events)
       <= calls [] + (maxRetries this + 1) * length batches.
Proof.
  intros this texts.
  apply (generateEmbeddings_request_bounds this (flakyProvider 4) texts []).
  - reflexivity.
  - simpl. lia.
Defined.

(** The run of the example above: four requests for the first batch of 20
    texts, one for the second batch of one text. *)
Example request_bounds_21 :
  match generateEmbeddings (constructor (Some (str "key"))) (flakyProvider 4)
          (TextArray (replicate 21 (str "text"))) [] with
  | Some (_, tr) => length <$> EmbeddingsRuns.posts tr
  | None => []
  end = [20; 20; 20; 20; 1].
Proof. vm_compute. reflexivity. Qed.

(** *** A provider that never fails *)

Section Success.
Variable this : EmbeddingsService.
Variable provider : nat -> list jsstring -> response.
Hypothesis Hsize : 0 < batchSize this.
Hypothesis Hgood : neverFails provider.

Local Abbreviation size := (batchSize this).
Local Abbreviation batchAt texts := (fun k => take size (drop (k * size) texts)).

Lemma processBatch_success texts i allEmbeddings tr :
  i < length texts ->
  processBatch this provider texts i allEmbeddings tr
  = (Ok (allEmbeddings ++ answer provider (calls tr) (take size (drop i texts))),
     (tr ++ [Post (take size (drop i texts))])
     ++ (if decide (i + size < length texts) then [Delay 500] else [])).
Proof using Hsize Hgood.
  intros Hi.
  destruct (processBatch_trace this provider texts i allEmbeddings tr)
    as (k & records & _ & Hrun & Hfail & Hlast).
  rewrite Nat2Z.inj_add, JSFacts.slice_window in Hrun, Hfail, Hlast by lia.
  rewrite !Nat2Z.id in Hrun, Hfail, Hlast.
  assert (Hk : k = 0).
  { destruct k as [|k]; [reflexivity|].
    destruct (Hfail 0 ltac:(lia)) as [e He].
    destruct (Hgood (calls tr + 0) (take size (drop i texts))) as [r Hr].
    congruence. }
  subst k. rewrite Nat.add_0_r in Hlast. rewrite Hrun. simpl retryTrace.
  destruct Hlast as [Hok|(_ & [e He] & _)].
  - unfold answer. rewrite Hok. reflexivity.
  - destruct (Hgood (calls tr) (take size (drop i texts))) as [r Hr]. congruence.
Qed.

Lemma batchLoop_success texts m : forall k allEmbeddings tr,
  k + m = Ingestion.ceilDiv (length texts) size ->
  batchLoop this provider texts (k * size) allEmbeddings tr
  = Some (Ok (allEmbeddings
              ++ answers provider (calls tr) (batchAt texts <$> seq k m)),
          tr ++ batchTrace (batchAt texts <$> seq k m)).
Proof using Hsize Hgood.
  destruct (IngestionSpec.ceilDiv_bounds (length texts) size Hsize)
    as [Hup Hlow].
  induction m as [|m IH]; intros k allEmbeddings tr Hk; rewrite batchLoop_unfold.
  - rewrite Nat.add_0_r in Hk. subst k.
    destruct (lt_dec _ _) as [Hlt|_]; [lia|]. simpl. rewrite !app_nil_r.
    reflexivity.
  - specialize (Hlow k ltac:(lia)) as Hi.
    destruct (lt_dec _ _) as [_|Hge]; [|lia].
    destruct (Nat.eq_dec size 0) as [H0|_]; [lia|].
    rewrite (processBatch_success texts (k * size) allEmbeddings tr Hi).
    replace (k * size + size) with (S k * size) by lia.
    rewrite IH by lia.
    assert (Hd : calls (if decide (S k * size < length texts)
                        then [Delay 500] else []) = 0)
      by (destruct (decide _); reflexivity).
    rewrite !calls_app, Hd, Nat.add_0_r.
    change (calls [Post _]) with 1. rewrite Nat.add_1_r.
    simpl seq. rewrite fmap_cons. simpl answers. rewrite <- !app_assoc.
    f_equal. f_equal. f_equal.
    destruct m as [|m].
    + destruct (decide _) as [Hlt|_]; [|reflexivity].
      assert (S k = Ingestion.ceilDiv (length texts) size) by lia. lia.
    + destruct (decide _) as [_|Hge]; [reflexivity|].
      specialize (Hlow (S k) ltac:(lia)). lia.
Qed.
End Success.

Lemma batchesOf_concat size texts :
  0 < size -> concat (batchesOf size texts) = texts.
Proof.
  intros Hsize. unfold batchesOf. rewrite IngestionSpec.concat_windows.
  apply take_ge. apply IngestionSpec.ceilDiv_bounds, Hsize.
Qed.

Lemma batchesOf_sizes size texts :
  0 < size ->
  Forall (fun batch => 0 < length batch <= size) (batchesOf size texts).
Proof.
  intros Hsize. unfold batchesOf. apply Forall_fmap, Forall_seq.
  intros k [_ Hk]. simpl in *.
  apply (proj2 (IngestionSpec.ceilDiv_bounds (length texts) size Hsize)) in Hk.
  rewrite length_take, length_drop. lia.
Qed.

(** X10: when no request fails, [generateEmbeddings] sends the texts in
    order, one request per batch of at most [batchSize] texts (the batches
    put end to end are the input), waits 500 ms after every request but the
    last, and returns the records of the responses in that order. *)
Theorem generateEmbeddings_success_trace
    (this : EmbeddingsService) (provider : nat -> list jsstring -> response)
    (texts : list jsstring) (tr : list event) :
  noApiKey this = false ->
  0 < batchSize this ->
  neverFails provider ->
  let batches := batchesOf (batchSize this) texts in
  generateEmbeddings this provider (TextArray texts) tr
  = Some (Ok (answers provider (calls tr) batches), tr ++ batchTrace batches)
  /\ concat batches = texts
  /\ Forall (fun batch => 0 < length batch <= batchSize this) batches.
Proof.
  intros Hkey Hsize Hgood batches. conjuncts.
  - unfold generateEmbeddings. rewrite Hkey.
    apply (batchLoop_success this provider Hsize Hgood texts _ 0 [] tr).
    reflexivity.
  - apply batchesOf_concat, Hsize.
  - apply batchesOf_sizes, Hsize.
Qed.

Lemma flakyProvider_neverFails : neverFails (flakyProvider 0).
Proof.
  intros n input. unfold flakyProvider. simpl.
  destruct input as [|text input]; simpl; eauto.
Qed.

Lemma generateEmbeddings_success_trace_witness :
  let batches := batchesOf (batchSize (constructor (Some (str "key"))))
                   (replicate 45 (str "text")) in
  generateEmbeddings (constructor (Some (str "key"))) (flakyProvider 0)
    (TextArray (replicate 45 (str "text"))) []
  = Some (Ok (answers (flakyProvider 0) (calls []) batches),
          [] ++ batchTrace batches)
  /\ concat batches = replicate 45 (str "text")
  /\ Forall (fun batch =>
               0 < length batch <= batchSize (constructor (Some (str "key"))))
            batches.
Proof.
  apply (generateEmbeddings_success_trace (constructor (Some (str "key")))
           (flakyProvider 0) (replicate 45 (str "text")) []).
  - reflexivity.
  - simpl. lia.
  - apply flakyProvider_neverFails.
Defined.

Example success_trace_45 :
  (fun e => match e with Post input => inl (length input) | Delay ms => inr ms end)
    <$> batchTrace (batchesOf 20 (replicate 45 (str "text")))
  = [inl 20; inr 500; inl 20; inr 500; inl 5].
Proof. vm_compute. reflexivity. Qed.

(** *** One text, and the health check *)

Section Single.
Variable this : EmbeddingsService.
Variable provider : nat -> list jsstring -> response.
Hypothesis Hkey : noApiKey this = false.
Hypothesis Hsize : 0 < batchSize this.

(** A single text is one batch: the run is the retries of that batch. *)
Lemma generateSingleEmbedding_run text tr :
  exists k records,
    k <= maxRetries this
    /\ generateSingleEmbedding this provider text tr
       = Some (Ok (head records), tr ++ retryTrace this [text] 0 k)
    /\ (forall a, a < k -> failedAttempt (provider (calls tr + a) [text]))
    /\ (readResponse (provider (calls tr + k) [text]) = Ok records
        \/ (k = maxRetries this
            /\ failedAttempt (provider (calls tr + k) [text])
            /\ records = fallbackRecords [text])).
Proof using Hkey Hsize.
  unfold generateSingleEmbedding, generateEmbeddings. rewrite Hkey.
  rewrite batchLoop_unfold. simpl length.
  destruct (lt_dec 0 1) as [_|?]; [|lia].
  destruct (Nat.eq_dec (batchSize this) 0) as [?|_]; [lia|].
  destruct (processBatch_trace this provider [text] 0 [] tr)
    as (k & records & Hk & Hrun & Hfail & Hlast).
  assert (Hbatch : slice [text] (Z.of_nat 0) (Z.of_nat (0 + batchSize this))
                   = [text]).
  { rewrite Nat2Z.inj_add, JSFacts.slice_window by (simpl; lia).
    rewrite Nat2Z.id. rewrite drop_0. apply take_ge. simpl. lia. }
  rewrite Hbatch in Hrun, Hfail, Hlast. rewrite Hrun.
  simpl length. destruct (decide (0 + batchSize this < 1)) as [?|_]; [lia|].
  rewrite batchLoop_unfold. simpl length.
  destruct (lt_dec (0 + batchSize this) 1) as [?|_]; [lia|].
  rewrite app_nil_r. exists k, records. conjuncts.
  - lia.
  - reflexivity.
  - exact Hfail.
  - destruct Hlast as [Hok|(Hmax & He & ->)]; [left; exact Hok|].
    right. conjuncts; [lia | exact He | reflexivity].
Qed.
End Single.

(** X11: with a key and a provider that answers each request with one item
    per input, [generateSingleEmbedding] never returns [null]: it returns
    one record, after at most [maxRetries + 1] requests. *)
Theorem generateSingleEmbedding_not_null
    (this : EmbeddingsService) (provider : nat -> list jsstring -> response)
    (text : jsstring) (tr : list event) :
  noApiKey this = false ->
  0 < batchSize this ->
  aligned provider ->
  exists record tr',
    generateSingleEmbedding this provider text tr = Some (Ok (Some record), tr')
    /\ calls tr < calls tr' <= calls tr + maxRetries this + 1.
Proof.
  intros Hkey Hsize Haligned.
  destruct (generateSingleEmbedding_run this provider Hkey Hsize text tr)
    as (k & records & Hk & Hrun & _ & Hlast).
  assert (Hlen : length records = 1).
  { destruct Hlast as [Hok|(_ & _ & ->)]; [|reflexivity].
    apply (batchOutcome_length [text]).
    eapply readResponse_outcome; eassumption. }
  destruct records as [|record rest]; [discriminate|].
  exists record, (tr ++ retryTrace this [text] 0 k). split; [exact Hrun|].
  rewrite calls_app, calls_retryTrace. lia.
Qed.

Lemma generateSingleEmbedding_not_null_witness :
  exists record tr',
    generateSingleEmbedding (constructor (Some (str "key"))) (flakyProvider 2)
      (str "Hello world") [] = Some (Ok (Some record), tr')
    /\ calls [] < calls tr'
       <= calls [] + maxRetries (constructor (Some (str "key"))) + 1.
Proof.
  apply (generateSingleEmbedding_not_null (constructor (Some (str "key")))
           (flakyProvider 2) (str "Hello world") []).
  - reflexivity.
  - simpl. lia.
  - apply flakyProvider_aligned.
Defined.

(** X12: [healthCheck] cannot tell a provider that is down from one that
    works.  With a key configured and every request failing, it makes
    [maxRetries + 1] requests and then reports ["healthy"] with dimension
    768, because the fallback record of the failed batch holds a vector of
    768 zeros. *)
Theorem healthCheck_healthy_when_provider_down
    (this : EmbeddingsService) (provider : nat -> list jsstring -> response)
    (tr : list event) :
  noApiKey this = false ->
  0 < batchSize this ->
  (forall n input, failedAttempt (provider n input)) ->
  exists tr',
    healthCheck this provider tr
    = Some ({| status := str "healthy";
               message := str "Jina embeddings service is working correctly";
               embeddingDimension := Some 768;
               error := None |}, tr')
    /\ calls tr' = calls tr + maxRetries this + 1.
Proof.
  intros Hkey Hsize Hdown.
  destruct (generateSingleEmbedding_run this provider Hkey Hsize
              (str "Hello world") tr)
    as (k & records & Hk & Hrun & _ & Hlast).
  destruct Hlast as [Hok|(-> & _ & ->)].
  { destruct (Hdown (calls tr + k) [str "Hello world"]) as [e He]. congruence. }
  exists (tr ++ retryTrace this [str "Hello world"] 0 (maxRetries this)). split.
  - unfold healthCheck. rewrite Hkey, Hrun. reflexivity.
  - rewrite calls_app, calls_retryTrace. lia.
Qed.

Lemma healthCheck_healthy_when_provider_down_witness :
  exists tr',
    healthCheck (constructor (Some (str "key"))) deadProvider []
    = Some ({| status := str "healthy";
               message := str "Jina embeddings service is working correctly";
               embeddingDimension := Some 768;
               error := None |}, tr')
    /\ calls tr' = calls [] + maxRetries (constructor (Some (str "key"))) + 1.
Proof.
  apply (healthCheck_healthy_when_provider_down
           (constructor (Some (str "key"))) deadProvider []).
  - reflexivity.
  - simpl. lia.
  - intros n input. exists AxiosError. reflexivity.
Defined.

(** X13: the [catch] of [healthCheck] is dead code.  Whatever the provider
    does, the check returns a report without an [error] field, after at
    most [maxRetries + 1] requests; without a key the report is
    ["degraded"] and no request is made; and a ["healthy"] report always
    carries dimension 768. *)
Theorem healthCheck_never_reports_error
    (this : EmbeddingsService) (provider : nat -> list jsstring -> response)
    (tr : list event) :
  0 < batchSize this ->
  exists report tr',
    healthCheck this provider tr = Some (report, tr')
    /\ error report = None
    /\ calls tr' <= calls tr + maxRetries this + 1
    /\ (noApiKey this = true -> status report = str "degraded" /\ tr' = tr)
    /\ (noApiKey this = false -> status report <> str "degraded"
                                 /\ calls tr < calls tr')
    /\ (status report = str "healthy" -> embeddingDimension report = Some 768).
Proof.
  intros Hsize. unfold healthCheck.
  destruct (noApiKey this) eqn:Hkey.
  - eexists _, tr. conjuncts; try reflexivity; simpl; try lia; try discriminate.
    intros _. split; reflexivity.
  - destruct (generateSingleEmbedding_run this provider Hkey Hsize
                (str "Hello world") tr)
      as (k & records & Hk & -> & _ & _).
    eexists _, _. split; [reflexivity|].
    assert (Hcalls : calls (tr ++ retryTrace this [str "Hello world"] 0 k)
                     = calls tr + S k)
      by (rewrite calls_app, calls_retryTrace; reflexivity).
    rewrite Hcalls.
    destruct (head records) as [[[v|] ? ?]|]; simpl;
      [destruct (decide (length v = 768)) as [Hv|Hv]|..]; simpl;
      conjuncts; try reflexivity; try discriminate; try lia;
      try (intros _; split; [discriminate|lia]).
    intros _. rewrite Hv. reflexivity.
Qed.

Lemma healthCheck_never_reports_error_witness :
  exists report tr',
    healthCheck (constructor None) (flakyProvider 1) [] = Some (report, tr')
    /\ error report = None
    /\ calls tr' <= calls [] + maxRetries (constructor None) + 1
    /\ (noApiKey (constructor None) = true ->
        status report = str "degraded" /\ tr' = [])
    /\ (noApiKey (constructor None) = false ->
        status report <> str "degraded" /\ calls [] < calls tr')
    /\ (status report = str "healthy" -> embeddingDimension report = Some 768).
Proof.
  apply (healthCheck_never_reports_error (constructor None) (flakyProvider 1) []).
  simpl. lia.
Defined.

End EmbeddingsExtra.

Module VectorStoreExtra.
Import VectorStore.

Local Open Scope Z_scope.

Lemma toInt32_range z : - 2 ^ 31 <= toInt32 z < 2 ^ 31.
Proof.
  unfold toInt32. pose proof (Z.mod_pos_bound z (2 ^ 32) ltac:(lia)).
  destruct (Z.leb_spec (2 ^ 31) (z mod 2 ^ 32)); lia.
Qed.

Lemma toInt32_mod z : toInt32 z mod 2 ^ 32 = z mod 2 ^ 32.
Proof.
  unfold toInt32. destruct (Z.leb_spec (2 ^ 31) (z mod 2 ^ 32)).
  - rewrite <- (Z.mod_add _ 1) by lia.
    replace (z mod 2 ^ 32 - 2 ^ 32 + 1 * 2 ^ 32) with (z mod 2 ^ 32) by lia.
    apply Z.mod_mod. lia.
  - apply Z.mod_mod. lia.
Qed.

Lemma toInt32_congr a b : a mod 2 ^ 32 = b mod 2 ^ 32 -> toInt32 a = toInt32 b.
Proof. unfold toInt32. intros ->. reflexivity. Qed.

Lemma toInt32_idem z : toInt32 (toInt32 z) = toInt32 z.
Proof. apply toInt32_congr, toInt32_mod. Qed.

Lemma toInt32_small z : - 2 ^ 31 <= z < 2 ^ 31 -> toInt32 z = z.
Proof.
  intros Hz. unfold toInt32.
  destruct (Z.leb_spec (2 ^ 31) (z mod 2 ^ 32)) as [Hm|Hm].
  - destruct (Z.neg_nonneg_cases z) as [Hneg|Hpos].
    + rewrite <- (Z.mod_add _ 1) by lia.
      rewrite Z.mod_small by lia. lia.
    + rewrite Z.mod_small in Hm by lia. lia.
  - destruct (Z.neg_nonneg_cases z) as [Hneg|Hpos].
    + rewrite <- (Z.mod_add _ 1) in Hm by lia.
      rewrite Z.mod_small in Hm by lia. lia.
    + apply Z.mod_small. lia.
Qed.

Lemma toInt32_wrap z : exists q, toInt32 z = z + q * 2 ^ 32.
Proof.
  pose proof (toInt32_mod z) as Hm.
  pose proof (Z.div_mod (toInt32 z) (2 ^ 32) ltac:(lia)) as H1.
  pose proof (Z.div_mod z (2 ^ 32) ltac:(lia)) as H2.
  exists (toInt32 z / 2 ^ 32 - z / 2 ^ 32). lia.
Qed.

(** One step, in arithmetic: the bit operations compute [31 * hash + char]
    wrapped to 32 bits. *)
Lemma hashStep_arith hash char :
  hashStep (toInt32 hash) char = toInt32 (31 * hash + Z.of_N char).
Proof.
  unfold hashStep, bitAnd, shiftLeft. rewrite Z.land_diag.
  change (Z.land 5 31) with 5. rewrite Z.shiftl_mul_pow2 by lia.
  rewrite !toInt32_idem. apply toInt32_congr.
  destruct (toInt32_wrap hash) as [q Hq].
  destruct (toInt32_wrap (toInt32 hash * 2 ^ 5)) as [q' Hq'].
  rewrite Hq', Hq.
  replace ((hash + q * 2 ^ 32) * 2 ^ 5 + q' * 2 ^ 32 - (hash + q * 2 ^ 32)
           + Z.of_N char)
    with (31 * hash + Z.of_N char + (31 * q + q') * 2 ^ 32) by lia.
  apply Z.mod_add. lia.
Qed.

Lemma fold_hashStep s : forall h,
  fold_left hashStep s (toInt32 h)
  = toInt32 (fold_left (fun h c => 31 * h + Z.of_N c) s h).
Proof.
  induction s as [|c s IH]; intros h; [reflexivity|].
  simpl. rewrite hashStep_arith. apply IH.
Qed.

Lemma generateValidPointId_arith originalId :
  generateValidPointId originalId = Z.abs (toInt32 (polynomial31 originalId)).
Proof.
  unfold generateValidPointId, polynomial31.
  rewrite <- fold_hashStep. reflexivity.
Qed.

Lemma polynomial31_app s t :
  polynomial31 (s ++ t)
  = fold_left (fun h c => 31 * h + Z.of_N c) t (polynomial31 s).
Proof. unfold polynomial31. apply fold_left_app. Qed.

(** X14: [generateValidPointId] is the base-31 polynomial hash of the code
    units, wrapped to a signed 32-bit integer, without its sign.  Its
    values lie between 0 and 2^31 inclusive, so ids that differ can share a
    point id, and an id hashing to [h] shares it with one hashing to
    [-h]. *)
Theorem generateValidPointId_polynomial originalId :
  generateValidPointId originalId = Z.abs (toInt32 (polynomial31 originalId))
  /\ 0 <= generateValidPointId originalId <= 2 ^ 31
  /\ forall other,
       toInt32 (polynomial31 other) = - toInt32 (polynomial31 originalId) ->
       generateValidPointId other = generateValidPointId originalId.
Proof.
  rewrite generateValidPointId_arith.
  pose proof (toInt32_range (polynomial31 originalId)).
  conjuncts; [reflexivity | lia | lia |].
  intros other Hneg. rewrite generateValidPointId_arith, Hneg.
  apply Z.abs_opp.
Qed.

(** X15: two ids that differ only in two adjacent code units [a b] and
    [a' b'] with [31 * a + b = 31 * a' + b'] get the same point id,
    whatever stands before and after them: ["Aa"] and ["BB"] are such a
    pair. *)
Theorem generateValidPointId_collision (prefix suffix : jsstring) (a b a' b' : N) :
  31 * Z.of_N a + Z.of_N b = 31 * Z.of_N a' + Z.of_N b' ->
  generateValidPointId (prefix ++ [a; b] ++ suffix)
  = generateValidPointId (prefix ++ [a'; b'] ++ suffix).
Proof.
  intros Hab. rewrite !generateValidPointId_arith.
  rewrite !polynomial31_app. simpl. do 3 f_equal. lia.
Qed.

Lemma generateValidPointId_collision_witness :
  str "Aa" <> str "BB"
  /\ generateValidPointId (str "doc-" ++ str "Aa" ++ str "-1")
     = generateValidPointId (str "doc-" ++ str "BB" ++ str "-1").
Proof.
  split; [discriminate|].
  apply (generateValidPointId_collision (str "doc-") (str "-1") 65 97 66 66).
  reflexivity.
Defined.

Example generateValidPointId_examples :
  generateValidPointId (str "") = 0
  /\ generateValidPointId (str "point_0") = 400605887
  /\ generateValidPointId (str "https://example.com/a-0") = 649839357.
Proof. vm_compute. conjuncts; reflexivity. Qed.

Local Close Scope Z_scope.

(** *** Batched upserts *)

Lemma upsertLoop_unfold c points i st :
  upsertLoop c points i st
  = if lt_dec i (length points) then
      (clientUpsert c (slice points (Z.of_nat i) (Z.of_nat (i + batchSize))) ;;;
       upsertLoop c points (i + batchSize))%js st
    else (Ok tt, st).
Proof.
  rewrite upsertLoop_equation_1.
  destruct (lt_dec i (length points)); reflexivity.
Qed.

Lemma applyBatch_app m a b :
  applyBatch m (a ++ b) = applyBatch (applyBatch m a) b.
Proof. apply foldl_app. Qed.

Lemma batchesOf_length points :
  length (batchesOf points) = Ingestion.ceilDiv (length points) batchSize.
Proof. unfold batchesOf. rewrite length_fmap, length_seq. reflexivity. Qed.

Section Run.
Variable c : QdrantClient.
Variable points : list Point.

Local Abbreviation batchAt := (fun k => take batchSize (drop (k * batchSize) points)).
Local Abbreviation total := (Ingestion.ceilDiv (length points) batchSize).

(** From batch [j] on, with the next [k] requests accepted and the one
    after them, if the loop gets to send it, rejected. *)
Lemma upsertLoop_run k : forall j st,
  j + k <= total ->
  (forall a, a < k -> rejects c (length (sent st) + a) = None) ->
  (j + k < total -> rejects c (length (sent st) + k) <> None) ->
  exists result,
    upsertLoop c points (j * batchSize) st
    = (result,
       {| collection := applyBatch (collection st)
                          (take (k * batchSize) (drop (j * batchSize) points));
          sent := sent st ++ (batchAt <$> seq j (Nat.min (S k) (total - j))) |})
    /\ (j + k = total -> result = Ok tt)
    /\ (j + k < total -> exists e, result = Throw e).
Proof.
  destruct (IngestionSpec.ceilDiv_bounds (length points) batchSize
              ltac:(unfold batchSize; lia)) as [Hup Hlow].
  induction k as [|k IH]; intros j [coll log] Hj Hacc Hrej;
    rewrite upsertLoop_unfold; cbn [collection sent] in *.
  - destruct (lt_dec (j * batchSize) (length points)) as [Hlt|Hge].
    + assert (Hjt : j < total) by (apply Nat.nlt_ge; intros Hge; nia).
      specialize (Hrej ltac:(lia)).
      unfold bind, clientUpsert. cbn [collection sent]. rewrite Nat.add_0_r in *.
      destruct (rejects c (length log)) as [e|]; [|congruence].
      exists (Throw e).
      rewrite Nat2Z.inj_add, JSFacts.slice_window by lia.
      rewrite !Nat2Z.id.
      replace (Nat.min 1 (total - j)) with 1 by lia.
      conjuncts; [reflexivity | lia | eauto].
    + assert (Hjt : j = total).
      { destruct (decide (j < total)) as [Hjt|?]; [|lia].
        specialize (Hlow j Hjt). lia. }
      exists (Ok tt). rewrite Hjt, Nat.sub_diag, Nat.min_0_r. cbn [seq fmap list_fmap take].
      rewrite Nat.mul_0_l, take_0. cbn [applyBatch foldl].
      rewrite app_nil_r. conjuncts; [reflexivity | reflexivity | lia].
  - assert (Hjt : j < total) by lia.
    specialize (Hlow j Hjt) as Hlt.
    destruct (lt_dec (j * batchSize) (length points)) as [_|?]; [|lia].
    unfold bind at 1. unfold clientUpsert at 1. cbn [collection sent].
    pose proof (Hacc 0 ltac:(lia)) as H0. rewrite Nat.add_0_r in H0.
    rewrite H0.
    rewrite Nat2Z.inj_add, JSFacts.slice_window by lia.
    rewrite !Nat2Z.id.
    replace (j * batchSize + batchSize) with (S j * batchSize) by lia.
    edestruct (IH (S j)
                 {| collection := applyBatch coll (batchAt j);
                    sent := log ++ [batchAt j] |})
      as (result & Hrun & Hok & Hthrow).
    + lia.
    + intros a Ha. cbn [collection sent]. rewrite length_app. cbn [length].
      replace (length log + 1 + a) with (length log + S a) by lia.
      apply Hacc. lia.
    + intros Hlt'. cbn [collection sent]. rewrite length_app. cbn [length].
      replace (length log + 1 + k) with (length log + S k) by lia.
      apply Hrej. lia.
    + cbn [collection sent] in Hrun.
      exists result. rewrite Hrun. conjuncts.
      * f_equal. f_equal.
        -- rewrite <- applyBatch_app. f_equal.
           change (S k * batchSize) with (batchSize + k * batchSize).
           rewrite <- (take_take_drop _ batchSize (k * batchSize)).
           rewrite drop_drop. do 3 f_equal. unfold batchSize. lia.
        -- rewrite <- app_assoc. f_equal.
           replace (Nat.min (S (S k)) (total - j))
             with (S (Nat.min (S k) (total - S j))) by lia.
           reflexivity.
      * intros Heq. apply Hok. lia.
      * intros Hlt'. apply Hthrow. lia.
Qed.
End Run.

(** The whole call: with the next [k] requests accepted and the one after
    them, if any batch is left, rejected. *)
Lemma upsertVectors_run this c vectors st k :
  client this = Some c ->
  k <= length (batchesOf (imap toPoint vectors)) ->
  (forall a, a < k -> rejects c (length (sent st) + a) = None) ->
  (k < length (batchesOf (imap toPoint vectors)) ->
   rejects c (length (sent st) + k) <> None) ->
  upsertVectors this vectors st
  = (Ok (bool_decide (k = length (batchesOf (imap toPoint vectors)))),
     {| collection := applyBatch (collection st)
                        (concat (take k (batchesOf (imap toPoint vectors))));
        sent := sent st ++ take (S k) (batchesOf (imap toPoint vectors)) |}).
Proof.
  intros Hclient Hk Hacc Hrej. unfold upsertVectors. rewrite Hclient.
  set (points := imap toPoint vectors) in *.
  rewrite batchesOf_length in Hk, Hrej |- *.
  destruct (upsertLoop_run c points k 0 st ltac:(lia) Hacc)
    as (result & Hrun & Hok & Hthrow); [simpl; exact Hrej|].
  change (0 * batchSize) with 0 in Hrun.
  unfold try_catch, bind. rewrite Hrun.
  assert (Hstate :
    take (k * batchSize) (drop 0 points) = concat (take k (batchesOf points))
    /\ (fun k0 => take batchSize (drop (k0 * batchSize) points))
         <$> seq 0 (Nat.min (S k)
                     (Ingestion.ceilDiv (length points) batchSize - 0))
       = take (S k) (batchesOf points)).
  { unfold batchesOf. rewrite <- !fmap_take, !take_seq.
    rewrite IngestionSpec.concat_windows, drop_0, Nat.sub_0_r.
    rewrite (Nat.min_l k) by exact Hk. split; reflexivity. }
  destruct Hstate as [-> ->].
  destruct (decide (k = Ingestion.ceilDiv (length points) batchSize)) as [Heq|Hne].
  - rewrite (Hok ltac:(lia)). rewrite bool_decide_eq_true_2 by exact Heq.
    reflexivity.
  - destruct (Hthrow ltac:(lia)) as [e ->].
    rewrite bool_decide_eq_false_2 by exact Hne. reflexivity.
Qed.

Lemma lastWithId_snoc pid points p :
  lastWithId pid (points ++ [p])
  = if decide (point_id p = pid) then Some p else lastWithId pid points.
Proof.
  unfold lastWithId. rewrite List.filter_app. simpl.
  destruct (decide (point_id p = pid)) as [Heq|Hne].
  - rewrite bool_decide_eq_true_2 by exact Heq. apply last_snoc.
  - rewrite bool_decide_eq_false_2 by exact Hne. rewrite app_nil_r. reflexivity.
Qed.

Lemma applyBatch_lookup m points pid :
  applyBatch m points !! pid
  = match lastWithId pid points with
    | Some p => Some p
    | None => m !! pid
    end.
Proof.
  induction points as [|p points IH] using rev_ind; [reflexivity|].
  rewrite applyBatch_app, lastWithId_snoc. simpl.
  destruct (decide (point_id p = pid)) as [<-|Hne].
  - apply lookup_insert_eq.
  - rewrite lookup_insert_ne by exact Hne. exact IH.
Qed.

Lemma pointBatches_concat points : concat (batchesOf points) = points.
Proof.
  unfold batchesOf. rewrite IngestionSpec.concat_windows.
  apply take_ge.
  apply (IngestionSpec.ceilDiv_bounds (length points) batchSize).
  unfold batchSize. lia.
Qed.

(** X16: [upsertVectors] is not atomic and never throws.  It sends the
    points in batches of at most 100, in order; when the server accepts
    the first [k] requests and rejects the next, the call returns [false]
    with the points of those [k] batches written and nothing sent after
    the rejected request; when all are accepted it returns [true] with
    every point written. *)
Theorem upsertVectors_stops_at_first_rejection
    (this : VectorStoreService) (c : QdrantClient) (vectors : list Vector)
    (st : Qdrant) (k : nat) :
  let batches := batchesOf (imap toPoint vectors) in
  client this = Some c ->
  k <= length batches ->
  (forall a, a < k -> rejects c (length (sent st) + a) = None) ->
  (k < length batches -> rejects c (length (sent st) + k) <> None) ->
  upsertVectors this vectors st
  = (Ok (bool_decide (k = length batches)),
     {| collection := applyBatch (collection st) (concat (take k batches));
        sent := sent st ++ take (S k) batches |})
  /\ concat batches = imap toPoint vectors
  /\ Forall (fun batch => 0 < length batch <= 100) batches.
Proof.
  intros batches Hclient Hk Hacc Hrej. conjuncts.
  - apply (upsertVectors_run this c vectors st k); assumption.
  - apply pointBatches_concat.
  - unfold batches, batchesOf. apply Forall_fmap, Forall_seq.
    intros j [_ Hj]. simpl in *.
    apply (proj2 (IngestionSpec.ceilDiv_bounds _ batchSize
                    ltac:(unfold batchSize; lia))) in Hj.
    rewrite length_take, length_drop. unfold batchSize in *. lia.
Qed.

Lemma upsertVectors_stops_at_first_rejection_witness :
  let this := {| client := Some (failsAt 2) |} in
  let vectors := unnamedVectors 250 in
  let batches := batchesOf (imap toPoint vectors) in
  upsertVectors this vectors emptyServer
  = (Ok (bool_decide (2 = length batches)),
     {| collection := applyBatch (collection emptyServer)
                        (concat (take 2 batches));
        sent := sent emptyServer ++ take 3 batches |})
  /\ concat batches = imap toPoint vectors
  /\ Forall (fun batch => 0 < length batch <= 100) batches.
Proof.
  intros this vectors batches.
  apply (upsertVectors_stops_at_first_rejection this (failsAt 2) vectors
           emptyServer 2).
  - reflexivity.
  - vm_compute. lia.
  - intros a Ha. simpl. destruct (decide (a = 2)); [lia|reflexivity].
  - intros _. simpl. discriminate.
Defined.

Lemma upsertVectors_accepted this c vectors st :
  client this = Some c ->
  (forall n, rejects c n = None) ->
  upsertVectors this vectors st
  = (Ok true,
     {| collection := applyBatch (collection st) (imap toPoint vectors);
        sent := sent st ++ batchesOf (imap toPoint vectors) |}).
Proof.
  intros Hclient Hacc.
  rewrite (upsertVectors_run this c vectors st
             (length (batchesOf (imap toPoint vectors))) Hclient);
    [|lia|intros; apply Hacc|lia].
  rewrite bool_decide_eq_true_2 by reflexivity.
  rewrite !take_ge by lia. rewrite pointBatches_concat. reflexivity.
Qed.

(** X17: points are keyed by the hash of the vector's id alone.  After an
    upsert that the server accepts, a point id holds the point of the last
    vector of the call that hashes to it, and what the collection held
    before when no vector does: of two vectors with colliding ids only the
    later one is stored. *)
Theorem upsertVectors_last_writer_wins
    (this : VectorStoreService) (c : QdrantClient) (vectors : list Vector)
    (st : Qdrant) :
  client this = Some c ->
  (forall n, rejects c n = None) ->
  exists st',
    upsertVectors this vectors st = (Ok true, st')
    /\ forall pid,
         collection st' !! pid
         = match lastWithId pid (imap toPoint vectors) with
           | Some p => Some p
           | None => collection st !! pid
           end.
Proof.
  intros Hclient Hacc. eexists. split.
  - apply (upsertVectors_accepted this c vectors st Hclient Hacc).
  - intros pid. apply applyBatch_lookup.
Qed.

Lemma upsertVectors_last_writer_wins_witness :
  exists st',
    upsertVectors {| client := Some reliable |}
      [plainVector "doc-Aa-1" "first"; plainVector "doc-BB-1" "second"]
      emptyServer = (Ok true, st')
    /\ forall pid,
         collection st' !! pid
         = match lastWithId pid
                   (imap toPoint [plainVector "doc-Aa-1" "first";
                                  plainVector "doc-BB-1" "second"]) with
           | Some p => Some p
           | None => collection emptyServer !! pid
           end.
Proof.
  apply (upsertVectors_last_writer_wins {| client := Some reliable |} reliable).
  - reflexivity.
  - intros n. reflexivity.
Defined.

(** Two vectors whose ids collide leave one point, the second's. *)
Example colliding_ids_overwrite :
  let result :=
    upsertVectors {| client := Some reliable |}
      [plainVector "doc-Aa-1" "first"; plainVector "doc-BB-1" "second"]
      emptyServer in
  result.1 = Ok true
  /\ (payload <$> collection result.2 !! 793910617%Z)
     = Some {[ str "content" := JString (str "second") ]}
  /\ size (collection result.2) = 1.
Proof. vm_compute. conjuncts; reflexivity. Qed.

(** X18: storing the same vectors a second time changes nothing in the
    collection, since point ids are computed from the vectors alone. *)
Theorem upsertVectors_idempotent
    (this : VectorStoreService) (c : QdrantClient) (vectors : list Vector)
    (st : Qdrant) :
  client this = Some c ->
  (forall n, rejects c n = None) ->
  exists st1 st2,
    upsertVectors this vectors st = (Ok true, st1)
    /\ upsertVectors this vectors st1 = (Ok true, st2)
    /\ collection st2 = collection st1.
Proof.
  intros Hclient Hacc. eexists _, _. conjuncts.
  - apply (upsertVectors_accepted this c vectors st Hclient Hacc).
  - apply (upsertVectors_accepted this c vectors _ Hclient Hacc).
  - cbn [collection]. apply map_eq. intros pid.
    rewrite !applyBatch_lookup.
    destruct (lastWithId pid (imap toPoint vectors)); reflexivity.
Qed.

Lemma upsertVectors_idempotent_witness :
  exists st1 st2,
    upsertVectors {| client := Some reliable |} (unnamedVectors 3) emptyServer
    = (Ok true, st1)
    /\ upsertVectors {| client := Some reliable |} (unnamedVectors 3) st1
       = (Ok true, st2)
    /\ collection st2 = collection st1.
Proof.
  apply (upsertVectors_idempotent {| client := Some reliable |} reliable).
  - reflexivity.
  - intros n. reflexivity.
Defined.

End VectorStoreExtra.

Module ChunkingExtra.
Import Ingestion Chunking IngestionSpec.

(** *** [trim] *)

Lemma trimStart_head s :
  match trimStart s with
  | [] => True
  | c :: _ => isWhiteSpace c = false
  end.
Proof.
  induction s as [|c s IH]; simpl; [exact I|].
  destruct (isWhiteSpace c) eqn:Hc; [exact IH | exact Hc].
Qed.

Lemma trimStart_suffix s : exists p, s = p ++ trimStart s.
Proof.
  induction s as [|c s [p Hp]]; simpl; [exists []; reflexivity|].
  destruct (isWhiteSpace c).
  - exists (c :: p). simpl. f_equal. exact Hp.
  - exists []. reflexivity.
Qed.

Lemma trimStart_last s :
  trimStart s <> [] -> last (trimStart s) = last s.
Proof.
  intros Hne. destruct (trimStart_suffix s) as [p Hp].
  rewrite Hp at 2. rewrite last_app.
  destruct (last (trimStart s)) eqn:Hl; [reflexivity|].
  apply last_None in Hl. contradiction.
Qed.

(** What [trim] returns has no white space at its ends. *)
Lemma trim_clean s : trim s <> [] -> cleanWord (trim s) = true.
Proof.
  unfold trim, trimEnd. intros Hne.
  set (t := trimStart s) in *. set (u := trimStart (reverse t)) in *.
  assert (Hu : u <> []) by (intros Hu; rewrite Hu in Hne; apply Hne; reflexivity).
  assert (Ht : t <> []).
  { intros Ht. apply Hu. unfold u. rewrite Ht. reflexivity. }
  pose proof (trimStart_head (reverse t)) as Hhead. fold u in Hhead.
  pose proof (trimStart_last (reverse t) Hu) as Hlast. fold u in Hlast.
  rewrite last_reverse in Hlast.
  pose proof (trimStart_head s) as Hhead'. fold t in Hhead'.
  destruct u as [|b u']; [congruence|].
  destruct t as [|a t']; [congruence|].
  apply (ends_cleanWord _ a b).
  - rewrite head_reverse. exact Hlast.
  - exact Hhead'.
  - rewrite last_reverse. reflexivity.
  - exact Hhead.
Qed.

Lemma trim_idempotent s : trim (trim s) = trim s.
Proof.
  destruct (decide (trim s = [])) as [->|Hne]; [reflexivity|].
  apply trim_cleanWord, trim_clean, Hne.
Qed.

(** *** The loop, whatever the words *)

Section Loop.
Variable words : list jsstring.
Variables maxChunkSize step : Z.
Hypothesis Hstep : (0 < step)%Z.

Local Abbreviation d := (Z.to_nat step).

Lemma chunkLoop_nonBlank m : forall k chunks,
  k + m = ceilDiv (length words) d ->
  chunkLoop words maxChunkSize step (Z.of_nat (k * d)) chunks
  = Some (chunks ++ nonBlank (trimmedWindow words maxChunkSize d <$> seq k m)).
Proof using Hstep.
  destruct (ceilDiv_bounds (length words) d ltac:(lia)) as [Hup Hlow].
  induction m as [|m IH]; intros k chunks Hk; rewrite chunkLoop_unfold.
  - destruct (Z_lt_dec _ _) as [Hlt|_]; [|simpl; rewrite app_nil_r; reflexivity].
    rewrite Nat.add_0_r in Hk. subst k. lia.
  - specialize (Hlow k ltac:(lia)).
    destruct (Z_lt_dec _ _) as [_|Hge]; [|lia].
    destruct (Z_lt_dec 0 step) as [_|Hno]; [|lia].
    cbv zeta.
    replace (Z.of_nat (k * d) + step)%Z with (Z.of_nat (S k * d))
      by (simpl; rewrite Nat2Z.inj_add; lia).
    rewrite IH by lia. f_equal.
    simpl seq. rewrite fmap_cons. unfold nonBlank at 2. simpl List.filter.
    fold (nonBlank (trimmedWindow words maxChunkSize d <$> seq (S k) m)).
    change (trim (join [space] (slice words (Z.of_nat (k * d))
                                  (Z.of_nat (k * d) + maxChunkSize))))
      with (trimmedWindow words maxChunkSize d k).
    destruct (trimmedWindow words maxChunkSize d k) as [|c w]; simpl;
      [reflexivity|].
    rewrite <- app_assoc. reflexivity.
Qed.
End Loop.

Lemma nonBlank_spec chunks :
  Forall (fun chunk => chunk <> []) (nonBlank chunks)
  /\ length (nonBlank chunks) <= length chunks.
Proof.
  unfold nonBlank. split.
  - apply Forall_forall. intros chunk Hin.
    apply list_elem_of_In, filter_In in Hin. destruct Hin as [_ Hne].
    apply negb_true_iff, bool_decide_eq_false in Hne. exact Hne.
  - apply List.filter_length_le.
Qed.

Lemma chunkContent_run content maxChunkSize overlap :
  (overlap < maxChunkSize)%Z ->
  chunkContent content maxChunkSize overlap
  = Some (match nonBlank (trimmedWindows content maxChunkSize overlap) with
          | [] => [content]
          | chunks => chunks
          end).
Proof.
  intros Hlt. unfold chunkContent, trimmedWindows.
  pose proof (chunkLoop_nonBlank (split space content) maxChunkSize
                (maxChunkSize - overlap) ltac:(lia)
                (ceilDiv (length (split space content))
                   (Z.to_nat (maxChunkSize - overlap))) 0 [] eq_refl) as Hrun.
  change (Z.of_nat (0 * _)) with 0%Z in Hrun.
  cbv zeta. rewrite Hrun. simpl app.
  destruct (nonBlank _); reflexivity.
Qed.

(** X19: with [overlap < maxChunkSize], [chunkContent] returns the
    non-blank trimmed windows of the words in order, one window per round
    of [ceil(W / (maxChunkSize - overlap))] rounds, or the content itself
    when every window is blank.  So the result is never empty, has at most
    that many chunks (one for an all-blank content), and each chunk is
    either the untouched content or a non-empty string that [trim] leaves
    alone. *)
Theorem chunkContent_nonblank_windows content maxChunkSize overlap :
  (overlap < maxChunkSize)%Z ->
  let windows := trimmedWindows content maxChunkSize overlap in
  exists chunks,
    chunkContent content maxChunkSize overlap = Some chunks
    /\ chunks = match nonBlank windows with
                | [] => [content]
                | kept => kept
                end
    /\ chunks <> []
    /\ length chunks
       <= Nat.max 1 (ceilDiv (length (split space content))
                       (Z.to_nat (maxChunkSize - overlap)))
    /\ (chunks = [content]
        \/ Forall (fun chunk => chunk <> [] /\ trim chunk = chunk) chunks).
Proof.
  intros Hlt windows. eexists. split; [apply chunkContent_run, Hlt|].
  fold windows. split; [reflexivity|].
  destruct (nonBlank_spec windows) as [Hne Hlen].
  assert (Htrim : Forall (fun chunk => trim chunk = chunk) (nonBlank windows)).
  { apply Forall_forall. intros chunk Hin.
    apply list_elem_of_In, filter_In in Hin. destruct Hin as [Hin _].
    apply list_elem_of_In, list_elem_of_fmap in Hin.
    destruct Hin as (j & -> & _). apply trim_idempotent. }
  assert (Hcount : length windows
                   = ceilDiv (length (split space content))
                       (Z.to_nat (maxChunkSize - overlap))).
  { unfold windows, trimmedWindows. rewrite length_fmap, length_seq.
    reflexivity. }
  destruct (nonBlank windows) as [|chunk kept] eqn:Hkept.
  - conjuncts; [discriminate | simpl; lia | left; reflexivity].
  - conjuncts; [discriminate | lia |].
    right. apply Forall_and. split; assumption.
Qed.

Lemma chunkContent_nonblank_windows_witness :
  let content := str "  breaking   news  from the wire  " in
  let windows := trimmedWindows content 3 1 in
  exists chunks,
    chunkContent content 3 1 = Some chunks
    /\ chunks = match nonBlank windows with
                | [] => [content]
                | kept => kept
                end
    /\ chunks <> []
    /\ length chunks
       <= Nat.max 1 (ceilDiv (length (split space content)) (Z.to_nat (3 - 1)))
    /\ (chunks = [content]
        \/ Forall (fun chunk => chunk <> [] /\ trim chunk = chunk) chunks).
Proof.
  intros content.
  apply (chunkContent_nonblank_windows content 3 1). lia.
Defined.

(** X20: [chunkContent] runs forever exactly when the overlap is not
    smaller than the chunk size: the word list is never empty, so the loop
    is entered, and its index does not advance. *)
Theorem chunkContent_diverges_iff content maxChunkSize overlap :
  chunkContent content maxChunkSize overlap = None
  <-> (maxChunkSize <= overlap)%Z.
Proof.
  split.
  - intros Hnone. destruct (Z_lt_dec overlap maxChunkSize) as [Hlt|]; [|lia].
    rewrite (chunkContent_run _ _ _ Hlt) in Hnone. discriminate.
  - intros Hle. unfold chunkContent. rewrite chunkLoop_unfold.
    pose proof (split_not_nil space content) as Hne.
    destruct (split space content) as [|w ws]; [congruence|].
    destruct (Z_lt_dec _ _) as [_|Hge]; [|simpl in Hge; lia].
    destruct (Z_lt_dec _ _) as [?|_]; [lia|reflexivity].
Qed.

Example chunkContent_blank :
  chunkContent (str "   ") 2 0 = Some [str "   "]
  /\ chunkContent (str " a  b ") 2 0 = Some [str "a"; str "b"]
  /\ chunkContent (str "a b c") (-1) (-2) = Some [str "a b"].
Proof. vm_compute. conjuncts; reflexivity. Qed.

End ChunkingExtra.

Module ProcessingExtra.
Import Processing.

Lemma fullContent_not_empty article : fullContent article <> [].
Proof.
  unfold fullContent. destruct (Ingestion.title article); discriminate.
Qed.

(** The default parameters always give a result: at least one chunk, none
    of them empty. *)
Lemma chunkContentDefault_run article :
  exists chunk chunks,
    Ingestion.chunkContentDefault (fullContent article) = Some (chunk :: chunks)
    /\ Forall (fun c => c <> []) (chunk :: chunks).
Proof.
  unfold Ingestion.chunkContentDefault.
  rewrite ChunkingExtra.chunkContent_run by lia.
  destruct (ChunkingExtra.nonBlank_spec
              (Chunking.trimmedWindows (fullContent article) 500 50))
    as [Hne _].
  destruct (Chunking.nonBlank _) as [|chunk chunks].
  - eexists _, _. split; [reflexivity|].
    repeat constructor. apply fullContent_not_empty.
  - eexists _, _. split; [reflexivity | exact Hne].
Qed.

Section Process.
Variable toISOString : jsstring -> option jsstring.

Lemma processLoop_run articles : forall processedChunks,
  processLoop toISOString articles processedChunks
  = if forallb (validDate toISOString) articles
    then Returns (processedChunks
                  ++ concat (chunksOfArticle toISOString <$> articles))
    else ThrowsRangeError.
Proof.
  induction articles as [|article rest IH]; intros processedChunks; simpl.
  - rewrite app_nil_r. reflexivity.
  - unfold validDate at 1, chunksOfArticle at 1.
    destruct (chunkContentDefault_run article) as (chunk & chunks & -> & _).
    destruct (toISOString (Ingestion.publishedAt article)) as [iso|]; simpl;
      [|reflexivity].
    rewrite IH. destruct (forallb _ rest); [|reflexivity].
    rewrite <- app_assoc. reflexivity.
Qed.

Lemma chunksOfArticle_spec article :
  validDate toISOString article = true ->
  chunksOfArticle toISOString article <> []
  /\ Forall (fun chunk => wellFormed chunk
                          /\ url (metadata chunk) = Ingestion.url article)
       (chunksOfArticle toISOString article)
  /\ id <$> chunksOfArticle toISOString article
     = chunkId (Ingestion.url article)
         <$> seq 0 (length (chunksOfArticle toISOString article)).
Proof.
  unfold validDate, chunksOfArticle.
  destruct (chunkContentDefault_run article) as (chunk & chunks & -> & Hne).
  destruct (toISOString (Ingestion.publishedAt article)) as [iso|];
    [intros _|discriminate].
  conjuncts.
  - discriminate.
  - apply Forall_forall. intros c Hc.
    apply elem_of_lookup_imap_1 in Hc. destruct Hc as (i & text & -> & Hi).
    split; [|reflexivity]. unfold wellFormed. simpl. conjuncts.
    + rewrite Forall_forall in Hne. apply Hne.
      eapply list_elem_of_lookup_2, Hi.
    + reflexivity.
    + apply lookup_lt_Some in Hi. exact Hi.
  - rewrite fmap_imap, length_imap.
    apply (imap_seq_0 (chunk :: chunks) (chunkId (Ingestion.url article))).
Qed.
End Process.

(** *** Chunk ids *)

Lemma digits_inj d : forall d', VectorStore.digits d = VectorStore.digits d' -> d = d'.
Proof.
  induction d; intros d' Heq; destruct d'; simpl in Heq;
    try discriminate; try reflexivity;
    injection Heq as Heq; f_equal; apply IHd, Heq.
Qed.

Lemma numberToString_inj i j :
  VectorStore.numberToString i = VectorStore.numberToString j -> i = j.
Proof.
  intros Heq. apply digits_inj in Heq.
  rewrite <- (Unsigned.of_to i), <- (Unsigned.of_to j), Heq. reflexivity.
Qed.

Lemma digits_no_dash d : 45%N ∉ VectorStore.digits d.
Proof.
  induction d; simpl; rewrite ?not_elem_of_cons;
    [apply not_elem_of_nil | split; [discriminate | assumption]..].
Qed.

Lemma last_separator {A} (sep : A) (a b x y : list A) :
  sep ∉ x -> sep ∉ y -> a ++ sep :: x = b ++ sep :: y -> a = b /\ x = y.
Proof.
  intros Hx Hy. revert b. induction a as [|c a IH]; intros [|c' b] Heq;
    simpl in Heq.
  - injection Heq as <-. split; reflexivity.
  - injection Heq as <- ->. exfalso. apply Hx.
    apply elem_of_app. right. apply elem_of_cons. left. reflexivity.
  - injection Heq as -> <-. exfalso. apply Hy.
    apply elem_of_app. right. apply elem_of_cons. left. reflexivity.
  - injection Heq as <- Heq. destruct (IH b Heq) as [-> ->].
    split; reflexivity.
Qed.

Lemma chunkId_inj url1 i url2 j :
  chunkId url1 i = chunkId url2 j -> url1 = url2 /\ i = j.
Proof.
  unfold chunkId. change (str "-") with [45%N]. simpl. intros Heq.
  apply last_separator in Heq; try apply digits_no_dash.
  destruct Heq as [-> Heq]. split; [reflexivity|].
  apply numberToString_inj, Heq.
Qed.

(** X21: [processArticlesForEmbedding] always ends, and is all or
    nothing: it returns, in article order, the chunks of every article
    when every date is valid, and throws a [RangeError] as soon as one is
    not. *)
Theorem processArticlesForEmbedding_all_or_nothing
    (toISOString : jsstring -> option jsstring)
    (articles : list Ingestion.Article) :
  processArticlesForEmbedding toISOString articles
  = if forallb (validDate toISOString) articles
    then Returns (concat (chunksOfArticle toISOString <$> articles))
    else ThrowsRangeError.
Proof. apply (processLoop_run toISOString articles []). Qed.

Lemma returned_chunks toISOString articles chunks :
  processArticlesForEmbedding toISOString articles = Returns chunks ->
  chunks = concat (chunksOfArticle toISOString <$> articles)
  /\ Forall (fun article => validDate toISOString article = true) articles.
Proof.
  unfold processArticlesForEmbedding. rewrite processLoop_run.
  destruct (forallb _ articles) eqn:Hvalid; [|discriminate].
  intros [= <-]. split; [reflexivity|].
  apply Forall_forall. intros article Hin.
  rewrite forallb_forall in Hvalid. apply Hvalid, list_elem_of_In, Hin.
Qed.

(** X22: every article yields at least one chunk, and no chunk is empty:
    the returned list is at least as long as the list of articles, each
    chunk has a non-empty content, the id [url-index] of its own url and
    index, and an index below its article's number of chunks. *)
Theorem processArticlesForEmbedding_chunks
    (toISOString : jsstring -> option jsstring)
    (articles : list Ingestion.Article) (chunks : list ProcessedChunk) :
  processArticlesForEmbedding toISOString articles = Returns chunks ->
  length articles <= length chunks /\ Forall wellFormed chunks.
Proof.
  intros Hrun. apply returned_chunks in Hrun. destruct Hrun as [-> Hvalid].
  split.
  - induction Hvalid as [|article rest Hv _ IH]; [reflexivity|].
    rewrite fmap_cons. cbn [concat length]. rewrite length_app.
    destruct (chunksOfArticle_spec toISOString article Hv) as [Hne _].
    destruct (chunksOfArticle toISOString article); [congruence|].
    cbn [length]. lia.
  - apply Forall_concat, Forall_fmap.
    eapply Forall_impl; [exact Hvalid|]. intros article Hv. simpl.
    destruct (chunksOfArticle_spec toISOString article Hv) as (_ & Hall & _).
    eapply Forall_impl; [exact Hall|]. intros chunk [Hwf _]. exact Hwf.
Qed.

Lemma processArticlesForEmbedding_chunks_witness :
  exists chunks,
    processArticlesForEmbedding sampleISO
      [sampleArticle "First" "https://example.com/a";
       sampleArticle "Second" "https://example.com/b"] = Returns chunks
    /\ 2 <= length chunks /\ Forall wellFormed chunks.
Proof.
  eexists. split; [vm_compute; reflexivity|].
  apply (processArticlesForEmbedding_chunks sampleISO
           [sampleArticle "First" "https://example.com/a";
            sampleArticle "Second" "https://example.com/b"]).
  vm_compute. reflexivity.
Defined.

(** X23: chunk ids identify chunks exactly as far as urls identify
    articles.  When the articles have pairwise different urls, no two
    returned chunks share an id. *)
Theorem processArticlesForEmbedding_unique_ids
    (toISOString : jsstring -> option jsstring)
    (articles : list Ingestion.Article) (chunks : list ProcessedChunk) :
  processArticlesForEmbedding toISOString articles = Returns chunks ->
  NoDup (Ingestion.url <$> articles) ->
  NoDup (id <$> chunks).
Proof.
  intros Hrun. apply returned_chunks in Hrun. destruct Hrun as [-> Hvalid].
  induction Hvalid as [|article rest Hv Hvalid IH]; intros Hurls; simpl.
  - constructor.
  - rewrite fmap_cons in Hurls. apply NoDup_cons in Hurls.
    destruct Hurls as [Hfresh Hurls].
    destruct (chunksOfArticle_spec toISOString article Hv)
      as (_ & _ & Hids).
    rewrite fmap_app. apply NoDup_app. conjuncts.
    + rewrite Hids. apply NoDup_fmap_2_strong; [|apply NoDup_seq].
      intros i j _ _ Heq. apply chunkId_inj in Heq. apply Heq.
    + intros x Hx Hx'. rewrite Hids in Hx.
      apply list_elem_of_fmap in Hx. destruct Hx as (i & -> & _).
      apply list_elem_of_fmap in Hx'. destruct Hx' as (chunk & Heq & Hin).
      apply list_elem_of_In, in_concat in Hin.
      destruct Hin as (group & Hgroup & Hin).
      apply list_elem_of_In in Hgroup, Hin.
      apply list_elem_of_fmap in Hgroup.
      destruct Hgroup as (other & -> & Hother).
      rewrite Forall_forall in Hvalid.
      destruct (chunksOfArticle_spec toISOString other (Hvalid _ Hother))
        as (_ & Hall & _).
      rewrite Forall_forall in Hall.
      destruct (Hall _ Hin) as [(_ & Hid & _) Hurl].
      rewrite Hid, Hurl in Heq. apply chunkId_inj in Heq.
      destruct Heq as [Heq _]. apply Hfresh. rewrite Heq.
      apply list_elem_of_fmap. exists other. split; [reflexivity|exact Hother].
    + apply IH, Hurls.
Qed.

Lemma processArticlesForEmbedding_unique_ids_witness :
  exists chunks,
    processArticlesForEmbedding sampleISO
      [sampleArticle "First" "https://example.com/a";
       sampleArticle "Second" "https://example.com/b"] = Returns chunks
    /\ NoDup (id <$> chunks).
Proof.
  eexists. split; [vm_compute; reflexivity|].
  apply (processArticlesForEmbedding_unique_ids sampleISO
           [sampleArticle "First" "https://example.com/a";
            sampleArticle "Second" "https://example.com/b"]).
  - vm_compute. reflexivity.
  - apply NoDup_ListNoDup. vm_compute.
    repeat constructor; simpl; intros H;
      repeat (destruct H as [H|H]; [discriminate H|]); exact H.
Defined.

(** Two articles with one url, which [removeDuplicates] keeps when their
    titles differ, give two chunks with one id. *)
Example shared_url_shares_ids :
  (id <$> concat (chunksOfArticle sampleISO
                    <$> [sampleArticle "First" "https://example.com/a";
                         sampleArticle "Second" "https://example.com/a"]))
  = [str "https://example.com/a-0"; str "https://example.com/a-0"].
Proof. vm_compute. reflexivity. Qed.

End ProcessingExtra.

Module ChatExtra.
Import Chat.

Lemma join_split sep s : join [sep] (split sep s) = s.
Proof.
  induction s as [|c s IH]; [reflexivity|]. simpl.
  pose proof (IngestionSpec.split_not_nil sep s) as Hne.
  destruct (N.eqb_spec c sep) as [->|_].
  - destruct (split sep s) as [|w ws]; [congruence|].
    simpl in *. rewrite IH. reflexivity.
  - destruct (split sep s) as [|w ws]; [congruence|].
    destruct ws as [|w' ws]; simpl in *; rewrite <- IH; reflexivity.
Qed.

Lemma join_cons sep w ws :
  join [sep] (w :: ws) = w ++ concat ((fun w' => sep :: w') <$> ws).
Proof.
  revert w. induction ws as [|w' ws IH]; intros w; simpl.
  - rewrite app_nil_r. reflexivity.
  - change (join [sep] (w' :: ws)) with (join [sep] (w' :: ws)).
    rewrite <- IH. reflexivity.
Qed.

Lemma split_length sep s :
  length (split sep s)
  = S (length (List.filter (fun c => (c =? sep)%N) s)).
Proof.
  induction s as [|c s IH]; [reflexivity|]. simpl.
  destruct (N.eqb_spec c sep) as [->|_]; simpl.
  - rewrite IH. reflexivity.
  - destruct (split sep s) as [|w ws]; simpl in *; lia.
Qed.

Lemma spaces_fullResponse message :
  S (length (List.filter (fun c => (c =? Ingestion.space)%N)
               (fullResponse message)))
  = 71 + spaces message.
Proof.
  unfold fullResponse, spaces.
  rewrite !List.filter_app, !length_app.
  generalize (length (List.filter (fun c => (c =? Ingestion.space)%N) message)).
  intros n.
  repeat match goal with
         | |- context [length (List.filter ?f ?l)] =>
             let v := eval vm_compute in (length (List.filter f l)) in
             change (length (List.filter f l)) with v
         end.
  lia.
Qed.

Section Stream.
Variable random : nat -> float.
Variable words : list jsstring.

(** The rounds from index [k] on: the text grows by the remaining words,
    each after a space but the very first; the chunks are those words, each
    before a space but the very last. *)
Lemma streamLoop_run m : forall k currentText tr,
  k + m = length words ->
  exists new,
    fold_left (streamStep random words) (seq k m) (currentText, tr)
    = (currentText
       ++ (if decide (0 < k) then
             concat ((fun w => Ingestion.space :: w) <$> drop k words)
           else join [Ingestion.space] words),
       tr ++ new)
    /\ concat (chunkTexts new) = join [Ingestion.space] (drop k words)
    /\ length (chunkTexts new) = m
    /\ length new = 2 * m.
Proof.
  induction m as [|m IH]; intros k currentText tr Hk.
  - exists []. rewrite !app_nil_r. rewrite drop_ge by lia. simpl.
    destruct (decide (0 < k)) as [_|Hk0].
    + rewrite app_nil_r. conjuncts; reflexivity.
    + assert (length words = 0) by lia.
      destruct words; [|discriminate]. rewrite app_nil_r.
      conjuncts; reflexivity.
  - assert (Hlt : k < length words) by lia.
    destruct (lookup_lt_is_Some_2 words k Hlt) as [word Hword].
    cbn [seq fold_left]. unfold streamStep at 2.
    rewrite (nth_lookup_Some _ _ _ _ Hword).
    edestruct (IH (S k)) as (new & -> & Hconcat & Hcount & Hlen); [lia|].
    eexists (_ :: _ :: new). conjuncts.
    + f_equal.
      * rewrite <- !app_assoc. f_equal.
        destruct (decide (0 < S k)) as [_|?]; [|lia].
        destruct (decide (0 < k)) as [Hk0|Hk0].
        -- rewrite (drop_S _ _ _ Hword), fmap_cons. reflexivity.
        -- assert (k = 0) by lia. subst k.
           destruct words as [|w ws]; [discriminate|].
           injection Hword as ->. simpl. rewrite drop_0.
           symmetry. apply join_cons.
      * rewrite <- app_assoc. reflexivity.
    + cbn [chunkTexts concat]. rewrite Hconcat.
      rewrite (drop_S _ _ _ Hword).
      destruct (decide (k < length words - 1)) as [Hmore|Hlast].
      * destruct (drop (S k) words) as [|w ws] eqn:Hrest.
        { apply (f_equal length) in Hrest. rewrite length_drop in Hrest.
          simpl in Hrest. lia. }
        simpl. rewrite <- app_assoc. reflexivity.
      * rewrite drop_ge by lia. simpl. rewrite !app_nil_r. reflexivity.
    + cbn [chunkTexts length]. rewrite Hcount. reflexivity.
    + cbn [length]. rewrite Hlen. lia.
Qed.
End Stream.

(** X24: whatever the message and the timer values, the chunks that
    [getMockStreamingResponse] hands to [onChunk], put end to end, are the
    full response, which is also the final [currentText]; there is one
    chunk per word, that is 71 of them plus one per space of the message,
    each followed by one timer. *)
Theorem getMockStreamingResponse_chunks_rebuild_response
    (random : nat -> float) (message : jsstring) (tr : list event) :
  exists new,
    getMockStreamingResponse random message tr
    = (fullResponse message, tr ++ new)
    /\ concat (chunkTexts new) = fullResponse message
    /\ length (chunkTexts new) = 71 + spaces message
    /\ length new = 2 * length (chunkTexts new).
Proof.
  unfold getMockStreamingResponse. cbv zeta.
  destruct (streamLoop_run random
              (split Ingestion.space (fullResponse message))
              (length (split Ingestion.space (fullResponse message)))
              0 [] tr (Nat.add_0_l _))
    as (new & Hrun & Hconcat & Hcount & Hlen).
  exists new. rewrite Hrun.
  destruct (decide (0 < 0)) as [?|_]; [lia|].
  rewrite drop_0 in Hconcat. rewrite join_split in Hconcat |- *.
  conjuncts.
  - reflexivity.
  - exact Hconcat.
  - rewrite Hcount, split_length. apply spaces_fullResponse.
  - lia.
Qed.

Example getMockStreamingResponse_hi :
  take 3 (chunkTexts (getMockStreamingResponse (fun _ => 0.5%float)
                        (str "hi  there") []).2)
  = [str "I "; str "understand "; str "you're "]
  /\ drop 5 (take 8 (chunkTexts (getMockStreamingResponse (fun _ => 0.5%float)
                                   (str "hi  there") []).2))
     = [34%N :: str "hi "; str " "; str "there" ++ [34%N; 10%N; 10%N] ++ str "This "].
Proof. vm_compute. conjuncts; reflexivity. Qed.

End ChatExtra.

Module SessionsExpiry.
Import Sessions SessionsView SessionsSpec SessionsExtra.

(** *** The in-memory backend measures the time to live from creation *)





End SessionsExpiry.
